(** * gemini-p5-editor: preview refresh and response parsing

    A shallow embedding of the string pipeline and of the state handling of
    [src/components/Editor.js] (both build variants) and of the generation
    route ([POST]), with the properties of the specification checked
    against it.

    JavaScript strings are sequences of UTF-16 code units; they are
    modelled as lists of [N].  The three regular expressions of the
    sources are written as terms of a small regex syntax and run by a
    backtracking matcher in continuation-passing style, the way
    ECMAScript defines pattern matching. *)

From Stdlib Require Import String Ascii.
From Stdlib Require Import List NArith Arith Bool Lia.
From Equations Require Import Equations.
Import ListNotations.

Set Implicit Arguments.

(** ** Strings and character classes *)

Definition jschar := N.
Definition jsstring := list jschar.

Definition ch (a : ascii) : jschar := N_of_ascii a.

Fixpoint lit (s : string) : jsstring :=
  match s with
  | EmptyString => []
  | String a s' => ch a :: lit s'
  end.

Definition LF : jschar := 10%N.
Definition SP : jschar := 32%N.
Definition SLASH : jschar := 47%N.
Definition STAR : jschar := 42%N.

(** ECMAScript [LineTerminator]: LF, CR, LS, PS. *)
Definition is_line_terminator (c : jschar) : bool :=
  ((c =? 10) || (c =? 13) || (c =? 8232) || (c =? 8233))%N.

(** ECMAScript [WhiteSpace] and [LineTerminator], the class [\s] and the
    characters removed by [String.prototype.trim]. *)
Definition is_space (c : jschar) : bool :=
  ((c =? 9) || (c =? 10) || (c =? 11) || (c =? 12) || (c =? 13) || (c =? 32)
   || (c =? 160) || (c =? 5760) || ((8192 <=? c) && (c <=? 8202))
   || (c =? 8232) || (c =? 8233) || (c =? 8239) || (c =? 8287)
   || (c =? 12288) || (c =? 65279))%N.

(** [[\s\S]]: every code unit. *)
Definition any_char (c : jschar) : bool := is_space c || negb (is_space c).

(** [.] without the [s] flag: everything but a line terminator. *)
Definition dot (c : jschar) : bool := negb (is_line_terminator c).

(** ** Regular expressions *)

Inductive regex : Type :=
| Chr (c : jschar)                      (* a literal character *)
| Cls (p : jschar -> bool)              (* a character class *)
| Bol                                   (* [^] under the [m] flag *)
| Seq (r1 r2 : regex)
| Alt (r1 r2 : regex)
| Star (greedy : bool) (p : jschar -> bool)   (* [p*] and [p*?] *)
| Plus (p : jschar -> bool).                  (* [p+] *)

Fixpoint Lits (l : jsstring) (r : regex) : regex :=
  match l with
  | [] => r
  | c :: l' => Seq (Chr c) (Lits l' r)
  end.

(** A continuation receives the number of code units matched so far, the
    code unit before the current position and the rest of the input. *)
Definition cont := nat -> option jschar -> jsstring -> option nat.

Fixpoint star_greedy (p : jschar -> bool) (n : nat) (prev : option jschar)
    (s : jsstring) (k : cont) : option nat :=
  match s with
  | c :: s' =>
      if p c then
        match star_greedy p (S n) (Some c) s' k with
        | Some r => Some r
        | None => k n prev s
        end
      else k n prev s
  | [] => k n prev s
  end.

Fixpoint star_lazy (p : jschar -> bool) (n : nat) (prev : option jschar)
    (s : jsstring) (k : cont) : option nat :=
  match k n prev s with
  | Some r => Some r
  | None =>
      match s with
      | c :: s' => if p c then star_lazy p (S n) (Some c) s' k else None
      | [] => None
      end
  end.

Definition at_line_start (prev : option jschar) : bool :=
  match prev with
  | None => true
  | Some c => is_line_terminator c
  end.

Fixpoint rmatch (r : regex) (n : nat) (prev : option jschar) (s : jsstring)
    (k : cont) : option nat :=
  match r with
  | Chr c =>
      match s with
      | x :: s' => if (x =? c)%N then k (S n) (Some x) s' else None
      | [] => None
      end
  | Cls p =>
      match s with
      | x :: s' => if p x then k (S n) (Some x) s' else None
      | [] => None
      end
  | Bol => if at_line_start prev then k n prev s else None
  | Seq r1 r2 => rmatch r1 n prev s (fun n' prev' s' => rmatch r2 n' prev' s' k)
  | Alt r1 r2 =>
      match rmatch r1 n prev s k with
      | Some x => Some x
      | None => rmatch r2 n prev s k
      end
  | Star true p => star_greedy p n prev s k
  | Star false p => star_lazy p n prev s k
  | Plus p =>
      match s with
      | x :: s' => if p x then star_greedy p (S n) (Some x) s' k else None
      | [] => None
      end
  end.

(** A matcher tells, for the code unit before a position and the input
    from that position on, how many code units a match there takes. *)
Definition matcher := option jschar -> jsstring -> option nat.

Definition exec (r : regex) : matcher :=
  fun prev s => rmatch r 0 prev s (fun n _ _ => Some n).

(** The code unit before position [n] of [c :: s]. *)
Definition prev_at (c : jschar) (s : jsstring) (n : nat) : jschar :=
  nth n (c :: s) c.

(** [String.prototype.replace] with a global regular expression and a
    constant replacement: matches are looked for from left to right, the
    next search starts where the last match ended, and after an empty
    match one code unit further. *)
Equations gsub (m : matcher) (rep : jsstring) (prev : option jschar)
    (s : jsstring) : jsstring by wf (length s) lt :=
  gsub m rep prev [] with m prev [] := {
    | Some _ := rep
    | None := [] };
  gsub m rep prev (c :: s') with m prev (c :: s') := {
    | Some (S n) := rep ++ gsub m rep (Some (prev_at c s' n)) (skipn n s')
    | Some 0 := rep ++ c :: gsub m rep (Some c) s'
    | None := c :: gsub m rep (Some c) s' }.
Next Obligation. rewrite length_skipn. lia. Qed.

(** [String.prototype.replace] with a regular expression without the [g]
    flag: only the leftmost match is replaced. *)
Fixpoint replace_first (m : matcher) (rep : jsstring) (prev : option jschar)
    (s : jsstring) : jsstring :=
  match m prev s with
  | Some n => rep ++ skipn n s
  | None =>
      match s with
      | [] => []
      | c :: s' => c :: replace_first m rep (Some c) s'
      end
  end.

Fixpoint take_while (p : jschar -> bool) (s : jsstring) : jsstring :=
  match s with
  | c :: s' => if p c then c :: take_while p s' else []
  | [] => []
  end.

Fixpoint drop_while (p : jschar -> bool) (s : jsstring) : jsstring :=
  match s with
  | c :: s' => if p c then drop_while p s' else s
  | [] => []
  end.

Fixpoint starts_with (p s : jsstring) : bool :=
  match p, s with
  | [], _ => true
  | _ :: _, [] => false
  | a :: p', b :: s' => (a =? b)%N && starts_with p' s'
  end.

(** [String.prototype.includes] *)
Fixpoint includes (p s : jsstring) : bool :=
  starts_with p s ||
  match s with
  | [] => false
  | _ :: s' => includes p s'
  end.

(** [String.prototype.trim]. *)
Definition trim_start (s : jsstring) : jsstring := drop_while is_space s.

Definition trim_end (s : jsstring) : jsstring := rev (trim_start (rev s)).

Definition trim (s : jsstring) : jsstring := trim_end (trim_start s).

(** ** Editor.js: normalizeCode *)

(** [/\/\*[\s\S]*?\*\/|\/\/.*/g] *)
Definition re_comments : regex :=
  Alt (Seq (Chr SLASH) (Seq (Chr STAR)
         (Seq (Star false any_char) (Seq (Chr STAR) (Chr SLASH)))))
      (Seq (Chr SLASH) (Seq (Chr SLASH) (Star true dot))).

(** [/\s+/g] *)
Definition re_spaces : regex := Plus is_space.

Definition normalizeCode (code : jsstring) : jsstring :=
  let noComments := gsub (exec re_comments) [] None code in
  trim (gsub (exec re_spaces) [SP] None noComments).

(** *** The normalizer as the specification words it

    Comments are recognised directly: a block comment runs from [/*]
    through the first [*/] after it, a line comment from [//] to the end
    of the line. *)

(** Offset just past the first [*/] of [s]. *)
Fixpoint block_end (s : jsstring) : option nat :=
  match s with
  | [] => None
  | c :: s' =>
      match s' with
      | d :: _ =>
          if ((c =? STAR) && (d =? SLASH))%N then Some 2
          else option_map S (block_end s')
      | [] => None
      end
  end.

(** Length of the comment that starts at the head of [s], if one does. *)
Definition comment_at (s : jsstring) : option nat :=
  match s with
  | c :: d :: r =>
      if (c =? SLASH)%N then
        if (d =? STAR)%N then option_map (fun j => 2 + j) (block_end r)
        else if (d =? SLASH)%N then Some (2 + length (take_while dot r))
        else None
      else None
  | _ => None
  end.

(** Length of the run of white space that starts at the head of [s]. *)
Definition space_run (s : jsstring) : option nat :=
  match s with
  | c :: s' =>
      if is_space c then Some (S (length (take_while is_space s'))) else None
  | [] => None
  end.

Equations strip_comments (s : jsstring) : jsstring by wf (length s) lt :=
  strip_comments [] := [];
  strip_comments (c :: s') with comment_at (c :: s') := {
    | Some n := strip_comments (skipn (pred n) s')
    | None := c :: strip_comments s' }.
Next Obligation. rewrite length_skipn. lia. Qed.

Equations collapse_spaces (s : jsstring) : jsstring by wf (length s) lt :=
  collapse_spaces [] := [];
  collapse_spaces (c :: s') with is_space c := {
    | true := SP :: collapse_spaces (drop_while is_space s')
    | false := c :: collapse_spaces s' }.
Next Obligation.
  clear. induction s' as [|d s' IH]; simpl; [lia|].
  destruct (is_space d); simpl in *; lia.
Qed.

Definition normalizeCode_spec (code : jsstring) : jsstring :=
  trim (collapse_spaces (strip_comments code)).

(** *** Comments as the grammar of JavaScript has them

    In a program, [//] or [/*] inside a string literal starts no comment.
    The scanner below follows the lexical grammar for string literals in
    single and double quotes and for templates without substitutions,
    with their backslash escapes; it does not recognise
    regular-expression literals, and a block comment that is never closed
    runs to the end of the text. *)
Inductive lexical_state : Type :=
| InCode
| InString (quote : jschar)
| InLineComment
| InBlockComment.

Definition BACKSLASH : jschar := 92%N.

(** ['], the double quote, and the backtick *)
Definition is_quote (c : jschar) : bool :=
  ((c =? 39) || (c =? 34) || (c =? 96))%N.

Fixpoint strip_lexical_comments (state : lexical_state) (s : jsstring)
    : jsstring :=
  match s with
  | [] => []
  | c :: s' =>
      match state with
      | InCode =>
          if is_quote c then c :: strip_lexical_comments (InString c) s'
          else if (c =? SLASH)%N then
            match s' with
            | d :: s'' =>
                if (d =? SLASH)%N then strip_lexical_comments InLineComment s''
                else if (d =? STAR)%N
                then strip_lexical_comments InBlockComment s''
                else c :: strip_lexical_comments InCode s'
            | [] => [c]
            end
          else c :: strip_lexical_comments InCode s'
      | InString quote =>
          if (c =? BACKSLASH)%N then
            match s' with
            | d :: s'' => c :: d :: strip_lexical_comments (InString quote) s''
            | [] => [c]
            end
          else if (c =? quote)%N then c :: strip_lexical_comments InCode s'
          else c :: strip_lexical_comments (InString quote) s'
      | InLineComment =>
          if is_line_terminator c then c :: strip_lexical_comments InCode s'
          else strip_lexical_comments InLineComment s'
      | InBlockComment =>
          if (c =? STAR)%N then
            match s' with
            | d :: s'' =>
                if (d =? SLASH)%N then strip_lexical_comments InCode s''
                else strip_lexical_comments InBlockComment s'
            | [] => []
            end
          else strip_lexical_comments InBlockComment s'
      end
  end.

(** The normalizer read with the comments of the program: those removed,
    white-space runs collapsed, the ends trimmed. *)
Definition normalizeCode_lexical (code : jsstring) : jsstring :=
  trim (collapse_spaces (strip_lexical_comments InCode code)).

(** Some position of [s] starts a comment: [//], or [/*] with a [*/]
    after it. *)
Fixpoint has_comment (s : jsstring) : bool :=
  match s with
  | [] => false
  | _ :: s' =>
      match comment_at s with Some _ => true | None => false end
      || has_comment s'
  end.

(** Some position of [s] starts with [/*] and has a [*/] further on. *)
Fixpoint has_block_comment (s : jsstring) : bool :=
  match s with
  | [] => false
  | _ :: s' =>
      (starts_with (lit "/*") s && includes (lit "*/") (skipn 2 s))
      || has_block_comment s'
  end.

(** Two white-space characters stand next to each other in [s]. *)
Fixpoint has_double_space (s : jsstring) : bool :=
  match s with
  | c :: s' =>
      match s' with
      | d :: _ => is_space c && is_space d
      | [] => false
      end
      || has_double_space s'
  | [] => false
  end.

(** Every white-space character of [s] is a space followed by a character
    that is not white space, or by the end of [s]. *)
Fixpoint single_spaced (s : jsstring) : bool :=
  match s with
  | c :: s' =>
      (if is_space c
       then (c =? SP)%N
            && match s' with d :: _ => negb (is_space d) | [] => true end
       else true)
      && single_spaced s'
  | [] => true
  end.

(** ** Fence extraction (route [POST] and the direct-client [generateCode]) *)

(** [String.prototype.split] with a string separator. *)
Equations split_from (sep cur s : jsstring) : list jsstring
    by wf (length s) lt :=
  split_from sep cur [] := [rev cur];
  split_from sep cur (c :: s') with starts_with sep (c :: s') := {
    | true := rev cur :: split_from sep [] (skipn (pred (length sep)) s')
    | false := split_from sep (c :: cur) s' }.
Next Obligation. rewrite length_skipn. lia. Qed.

Definition split (sep s : jsstring) : list jsstring :=
  match sep with
  | [] => map (fun c => [c]) s
  | _ :: _ => split_from sep [] s
  end.

(** [Array.prototype.filter] with a callback that sees the index. *)
Fixpoint filter_index {A} (f : A -> nat -> bool) (index : nat) (l : list A)
    : list A :=
  match l with
  | [] => []
  | block :: l' =>
      if f block index then block :: filter_index f (S index) l'
      else filter_index f (S index) l'
  end.

(** [Array.prototype.join] *)
Fixpoint join (sep : jsstring) (l : list jsstring) : jsstring :=
  match l with
  | [] => []
  | [x] => x
  | x :: l' => x ++ sep ++ join sep l'
  end.

Definition FENCE : jsstring := lit "```".

(** [/^javascript\n/m] *)
Definition re_language_tag : regex :=
  Seq Bol (Lits (lit "javascript") (Chr LF)).

(** The chain both variants apply to the fenced response. *)
Definition odd_index {A} (block : A) (index : nat) : bool :=
  index mod 2 =? 1.

Definition fenced_bodies (generatedCode : jsstring) : jsstring :=
  join [LF] (filter_index odd_index 0 (split FENCE generatedCode)).

Definition extractCode (generatedCode : jsstring) : jsstring :=
  if includes FENCE generatedCode then
    trim (replace_first (exec re_language_tag) [] None
            (fenced_bodies generatedCode))
  else generatedCode.

(** *** The tag removal as the specification words it *)

Definition TAG_LINE : jsstring := lit "javascript" ++ [LF].

(** Remove a leading language-tag line, if present. *)
Definition strip_leading_tag (s : jsstring) : jsstring :=
  if starts_with TAG_LINE s then skipn (length TAG_LINE) s else s.

Definition extractCode_spec (generatedCode : jsstring) : jsstring :=
  trim (strip_leading_tag (fenced_bodies generatedCode)).

(** Remove the first tag line that begins at the start of a line. *)
Fixpoint remove_tag_line (line_start : bool) (s : jsstring) : jsstring :=
  if line_start && starts_with TAG_LINE s then skipn (length TAG_LINE) s
  else
    match s with
    | [] => []
    | c :: s' => c :: remove_tag_line (is_line_terminator c) s'
    end.

(** ** The generation route *)

(** What an awaited call does: it returns, or it throws.  A thrown value
    other than [null] and [undefined] can be asked for its [message]
    (which it may not have); on a thrown [null] or [undefined] the
    property access itself throws a [TypeError]. *)
Inductive outcome (A : Type) : Type :=
| Returned (a : A)
| Threw (message : option jsstring)    (* [error.message], if it has one *)
| ThrewNullish.                        (* [throw null], [throw undefined] *)
Arguments Returned {A} a.
Arguments Threw {A} message.
Arguments ThrewNullish {A}.

Record request_body : Type := {
  rq_prompt : jsstring;
  rq_modelName : jsstring;
  rq_temperature : jsstring
}.

(** A JSON body with the two keys the route and the client use; a key set
    to [undefined] is absent from the serialised body. *)
Record payload : Type := {
  p_code : option jsstring;
  p_error : option jsstring
}.

Record http_response : Type := {
  status : nat;
  body : payload
}.

(** [POST]: [body] is the outcome of [await request.json()], [vendor] the
    calls on the vendor's client ([getGenerativeModel], [startChat],
    [sendMessage], [response.text()]) for a request; what
    [response.text()] returns is a string, as the client's interface
    declares.  The [catch] block logs the thrown value and answers with
    its message; reading [error.message] of a thrown [null] or
    [undefined] throws inside the block, where nothing catches it, and
    the handler returns no response ([None]). *)
Definition POST (body : outcome request_body)
    (vendor : request_body -> outcome jsstring) : option http_response :=
  match body with
  | Returned request =>
      match vendor request with
      | Returned generatedCode =>
          Some {| status := 200;
                  body := {| p_code := Some (extractCode generatedCode);
                             p_error := None |} |}
      | Threw message =>
          Some {| status := 500;
                  body := {| p_code := None; p_error := message |} |}
      | ThrewNullish => None
      end
  | Threw message =>
      Some {| status := 500;
              body := {| p_code := None; p_error := message |} |}
  | ThrewNullish => None
  end.

(** The route answers with a failure status. *)
Definition is_error_response (r : http_response) : bool :=
  negb (status r =? 200).

(** ** Editor.js *)

Definition DQ : jschar := 34%N.

Definition lines (l : list jsstring) : jsstring := join [LF] l.

Definition INITIAL_CODE : jsstring :=
  lines [
    lit "function setup() {";
    lit "  createCanvas(400, 400);";
    lit "}";
    lit "";
    lit "function draw() {";
    lit "  background(220);";
    lit "  ellipse(mouseX, mouseY, 50, 50);";
    lit "}" ].

Definition iframe_head : jsstring :=
  lines [
    lit "";
    lit "<!DOCTYPE html>";
    lit "<html>";
    lit "  <head>";
    lit "    <script src=" ++ [DQ]
      ++ lit "https://cdnjs.cloudflare.com/ajax/libs/p5.js/1.4.0/p5.js"
      ++ [DQ] ++ lit "></script>";
    lit "    <style>";
    lit "      body { ";
    lit "        margin: 0; ";
    lit "        padding: 0;";
    lit "        display: flex;";
    lit "        justify-content: center;";
    lit "        align-items: center;";
    lit "        min-height: 100vh;";
    lit "      }";
    lit "      main {";
    lit "        display: block;";
    lit "        margin: 0 auto;";
    lit "      }";
    lit "      .error {";
    lit "        color: red;";
    lit "        font-family: monospace;";
    lit "        white-space: pre-wrap;";
    lit "        padding: 10px;";
    lit "      }";
    lit "    </style>";
    lit "  </head>";
    lit "  <body>";
    lit "    <script>";
    lit "      // Error handling";
    lit "      window.onerror = function(msg, url, lineNo, columnNo, error) {";
    lit "        document.body.innerHTML = '<div class=" ++ [DQ] ++ lit "error"
      ++ [DQ] ++ lit ">Error: ' + msg + '</div>';";
    lit "        return false;";
    lit "      };";
    lit "";
    lit "      window.console.error = function(...args) {";
    lit "        document.body.innerHTML = '<div class=" ++ [DQ] ++ lit "error"
      ++ [DQ] ++ lit ">Error: ' + args.join(' ') + '</div>';";
    lit "      };";
    lit "";
    lit "      // Update message handler for screenshot";
    lit "      window.addEventListener('message', function(event) {";
    lit "        if (event.data.type === 'takeScreenshot') {";
    lit "          const canvas = document.querySelector('canvas');";
    lit "          if (canvas) {";
    lit "            const dataUrl = canvas.toDataURL('image/png');";
    lit "            window.parent.postMessage({ type: 'screenshot', data: dataUrl }, '*');";
    lit "          }";
    lit "        }";
    lit "      });";
    lit "";
    lit "      // User code";
    lit "      " ].

Definition iframe_tail : jsstring :=
  lines [
    lit "";
    lit "    </script>";
    lit "  </body>";
    lit "</html>";
    lit "" ].

Definition getIframeContent (userCode : jsstring) : jsstring :=
  iframe_head ++ userCode ++ iframe_tail.

(** [===] on strings. *)
Fixpoint str_eqb (a b : jsstring) : bool :=
  match a, b with
  | [], [] => true
  | x :: a', y :: b' => (x =? y)%N && str_eqb a' b'
  | _, _ => false
  end.

Inductive jsval : Type :=
| JUndefined
| JString (s : jsstring).

Definition of_field (f : option jsstring) : jsval :=
  match f with
  | Some s => JString s
  | None => JUndefined
  end.

(** Truthiness of a payload field: present and not the empty string. *)
Definition truthy (f : option jsstring) : bool :=
  match f with
  | Some (_ :: _) => true
  | _ => false
  end.

(** What the client sees of a [fetch] followed by [response.json()]; the
    status of the response is not looked at. *)
Inductive fetch_result : Type :=
| NetworkError (message : jsstring)
| BodyNotJson (message : jsstring)
| Body (data : payload).

(** The iframe element behind [iframeRef.current]. *)
Record iframe : Type := {
  srcdoc : jsstring;
  srcdoc_writes : nat       (* how often [srcdoc] was assigned *)
}.

Definition assign_srcdoc (doc : jsstring) (f : iframe) : iframe :=
  {| srcdoc := doc; srcdoc_writes := S (srcdoc_writes f) |}.

Module Editor.

(** The values one render of the component binds; the functions made by
    [useCallback] in that render read these, not the live state. *)
Record render : Type := {
  r_code : jsval;
  r_normalizedCode : jsstring;
  r_prompt : jsstring;
  r_selectedModel : jsstring;
  r_temperature : jsstring;
  r_isGenerating : bool;
  r_autoGenerate : bool
}.

Record state : Type := {
  current : render;                 (* the [useState] cells *)
  iframeRef : option iframe;
  fetches : list request_body;      (* requests sent, latest first *)
  inflight : list render;           (* calls awaiting their [fetch] *)
  timers : list render;             (* [setTimeout] callbacks pending *)
  console : list jsstring           (* [console.error] messages *)
}.

Definition with_current (f : render -> render) (st : state) : state :=
  {| current := f (current st); iframeRef := iframeRef st;
     fetches := fetches st; inflight := inflight st;
     timers := timers st; console := console st |}.

Definition setCode (v : jsval) : state -> state :=
  with_current (fun r =>
    {| r_code := v; r_normalizedCode := r_normalizedCode r;
       r_prompt := r_prompt r; r_selectedModel := r_selectedModel r;
       r_temperature := r_temperature r;
       r_isGenerating := r_isGenerating r;
       r_autoGenerate := r_autoGenerate r |}).

Definition setNormalizedCode (n : jsstring) : state -> state :=
  with_current (fun r =>
    {| r_code := r_code r; r_normalizedCode := n;
       r_prompt := r_prompt r; r_selectedModel := r_selectedModel r;
       r_temperature := r_temperature r;
       r_isGenerating := r_isGenerating r;
       r_autoGenerate := r_autoGenerate r |}).

Definition setIsGenerating (b : bool) : state -> state :=
  with_current (fun r =>
    {| r_code := r_code r; r_normalizedCode := r_normalizedCode r;
       r_prompt := r_prompt r; r_selectedModel := r_selectedModel r;
       r_temperature := r_temperature r;
       r_isGenerating := b;
       r_autoGenerate := r_autoGenerate r |}).

Definition setAutoGenerate (b : bool) : state -> state :=
  with_current (fun r =>
    {| r_code := r_code r; r_normalizedCode := r_normalizedCode r;
       r_prompt := r_prompt r; r_selectedModel := r_selectedModel r;
       r_temperature := r_temperature r;
       r_isGenerating := r_isGenerating r;
       r_autoGenerate := b |}).

Definition setPrompt (p : jsstring) : state -> state :=
  with_current (fun r =>
    {| r_code := r_code r; r_normalizedCode := r_normalizedCode r;
       r_prompt := p; r_selectedModel := r_selectedModel r;
       r_temperature := r_temperature r;
       r_isGenerating := r_isGenerating r;
       r_autoGenerate := r_autoGenerate r |}).

Definition set_iframe (f : option iframe) (st : state) : state :=
  {| current := current st; iframeRef := f;
     fetches := fetches st; inflight := inflight st;
     timers := timers st; console := console st |}.

Definition console_error (msg : jsstring) (st : state) : state :=
  {| current := current st; iframeRef := iframeRef st;
     fetches := fetches st; inflight := inflight st;
     timers := timers st; console := msg :: console st |}.

Definition fetch (r : render) (st : state) : state :=
  {| current := current st; iframeRef := iframeRef st;
     fetches := {| rq_prompt := r_prompt r;
                   rq_modelName := r_selectedModel r;
                   rq_temperature := r_temperature r |} :: fetches st;
     inflight := inflight st ++ [r];
     timers := timers st; console := console st |}.

Definition setTimeout (r : render) (st : state) : state :=
  {| current := current st; iframeRef := iframeRef st;
     fetches := fetches st; inflight := inflight st;
     timers := timers st ++ [r]; console := console st |}.

Definition remove_nth {A} (i : nat) (l : list A) : list A :=
  firstn i l ++ skipn (S i) l.

Definition settle_inflight (i : nat) (st : state) : state :=
  {| current := current st; iframeRef := iframeRef st;
     fetches := fetches st; inflight := remove_nth i (inflight st);
     timers := timers st; console := console st |}.

Definition clear_timer (i : nat) (st : state) : state :=
  {| current := current st; iframeRef := iframeRef st;
     fetches := fetches st; inflight := inflight st;
     timers := remove_nth i (timers st); console := console st |}.

(** [updatePreview] as made by the render [r], run on the state [st];
    [None] is the [TypeError] of [normalizeCode] on a non-string. *)
Definition updatePreview (r : render) (st : state) : option state :=
  match r_code r with
  | JUndefined => None
  | JString code =>
      let newNormalizedCode := normalizeCode code in
      if negb (str_eqb newNormalizedCode (r_normalizedCode r)) then
        let st := setNormalizedCode newNormalizedCode st in
        match iframeRef st with
        | Some f =>
            Some (set_iframe
                    (Some (assign_srcdoc (getIframeContent code) f)) st)
        | None => Some st
        end
      else Some st
  end.

(** The effect [useEffect(() => { updatePreview(); ... }, [code,
    updatePreview, ...])]: it runs after a render in which [code] or
    [normalizedCode] changed, with the functions of that render; when it
    sets [normalizedCode] a second render and a second run follow. *)
Definition run_effects (st : state) : option state :=
  match updatePreview (current st) st with
  | Some st1 => updatePreview (current st1) st1
  | None => None
  end.

(** CodeMirror's [onChange]: [setCode(value); updatePreview();] with the
    functions of the render on screen, then the render that [setCode]
    causes and its effects. *)
Definition onChange (value : jsstring) (st : state) : option state :=
  match updatePreview (current st) (setCode (JString value) st) with
  | Some st1 => run_effects st1
  | None => None
  end.

Fixpoint edit (values : list jsstring) (st : state) : option state :=
  match values with
  | [] => Some st
  | v :: rest =>
      match onChange v st with
      | Some st' => edit rest st'
      | None => None
      end
  end.

(** The state after the first render and its effects: the preview effect
    finds nothing to do and the initial load effect assigns [srcdoc]. *)
Definition mounted : state :=
  {| current :=
       {| r_code := JString INITIAL_CODE;
          r_normalizedCode := normalizeCode INITIAL_CODE;
          r_prompt := [];
          r_selectedModel := lit "gemini-2.0-flash";
          r_temperature := lit "1";
          r_isGenerating := false;
          r_autoGenerate := false |};
     iframeRef :=
       Some (assign_srcdoc (getIframeContent INITIAL_CODE)
               {| srcdoc := []; srcdoc_writes := 0 |});
     fetches := []; inflight := []; timers := []; console := [] |}.

(** [generateCode] as made by the render [r], up to its [await fetch]. *)
Definition generateCode (r : render) (st : state) : state :=
  if r_isGenerating r then st
  else fetch r (setIsGenerating true st).

(** The rest of that call, once the [fetch] has settled with [res]. *)
Definition generateCode_resume (r : render) (res : fetch_result)
    (st : state) : state :=
  let st :=
    match res with
    | NetworkError message => console_error message st
    | BodyNotJson message => console_error message st
    | Body data =>
        if truthy (p_error data) then
          console_error (match p_error data with
                         | Some m => m | None => [] end) st
        else
          let st := setCode (of_field (p_code data)) st in
          if r_autoGenerate r then setTimeout r st else st
    end in
  setIsGenerating false st.

Inductive event : Type :=
| ClickGenerate                                  (* the Generate button *)
| PressEnter                                     (* Enter in the prompt *)
| TypePrompt (p : jsstring)
| ToggleAutoGenerate
| FetchSettles (i : nat) (res : fetch_result)    (* the i-th call resumes *)
| TimerFires (i : nat).                          (* the i-th timer runs *)

(** One event handled, and the render it causes committed: handlers
    attached to the page call the functions of the current render, a
    resumed call and a timer those of the render that made them.  The
    preview effect that follows a change of [code] is [run_effects]; it
    touches none of the cells [generateCode] reads and is not run here. *)
Definition step (e : event) (st : state) : state :=
  match e with
  | ClickGenerate => generateCode (current st) st
  | PressEnter =>
      if negb (r_isGenerating (current st))
      then generateCode (current st) st else st
  | TypePrompt p => setPrompt p st
  | ToggleAutoGenerate =>
      setAutoGenerate (negb (r_autoGenerate (current st))) st
  | FetchSettles i res =>
      match nth_error (inflight st) i with
      | Some r => generateCode_resume r res (settle_inflight i st)
      | None => st
      end
  | TimerFires i =>
      match nth_error (timers st) i with
      | Some r => generateCode r (clear_timer i st)
      | None => st
      end
  end.

Fixpoint run (es : list event) (st : state) : state :=
  match es with
  | [] => st
  | e :: es' => run es' (step e st)
  end.

Inductive reachable : state -> Prop :=
| reach_mounted : reachable mounted
| reach_step e st : reachable st -> reachable (step e st).

End Editor.

(** The build variant that calls the vendor's client from the browser; it
    has no [normalizeCode] and no [normalizedCode] cell. *)
Module DirectClient.

Record state : Type := {
  code : jsstring;
  iframeRef : option iframe
}.

Definition updatePreview (st : state) : state :=
  match iframeRef st with
  | Some f =>
      {| code := code st;
         iframeRef := Some (assign_srcdoc (getIframeContent (code st)) f) |}
  | None => st
  end.

Definition setCode (v : jsstring) (st : state) : state :=
  {| code := v; iframeRef := iframeRef st |}.

(** [onChange] is [setCode(value)]; the effect on [code] then runs
    [updatePreview]. *)
Definition onChange (value : jsstring) (st : state) : state :=
  updatePreview (setCode value st).

(** The success path of [generateCode]: the extracted text becomes the
    sketch source. *)
Definition generated (text : jsstring) (st : state) : state :=
  updatePreview (setCode (extractCode text) st).

Definition mounted : state :=
  updatePreview
    {| code := INITIAL_CODE;
       iframeRef := Some {| srcdoc := []; srcdoc_writes := 0 |} |}.

End DirectClient.

(** The source last handed to the preview: an edit replaces it when its
    normalized form differs from that of the one on display. *)
Fixpoint last_rendered (shown : jsstring) (values : list jsstring) : jsstring :=
  match values with
  | [] => shown
  | v :: rest =>
      last_rendered
        (if str_eqb (normalizeCode v) (normalizeCode shown) then shown else v)
        rest
  end.

Fixpoint reloads (shown : jsstring) (values : list jsstring) : nat :=
  match values with
  | [] => 0
  | v :: rest =>
      if str_eqb (normalizeCode v) (normalizeCode shown)
      then reloads shown rest
      else S (reloads v rest)
  end.

(** The state agrees with the source [shown] on display, assigned to the
    frame [writes] times so far. *)
Record synced (shown : jsstring) (writes : nat) (st : Editor.state) : Prop := {
  synced_code :
    exists c, Editor.r_code (Editor.current st) = JString c
              /\ normalizeCode c = normalizeCode shown;
  synced_normalized :
    Editor.r_normalizedCode (Editor.current st) = normalizeCode shown;
  synced_iframe :
    Editor.iframeRef st
    = Some {| srcdoc := getIframeContent shown; srcdoc_writes := writes |}
}.

(** ** Further notions used by the properties below *)

Definition BACKTICK : jschar := 96%N.

(** The body of the request a call made by the render [r] sends. *)
Definition request_of (r : Editor.render) : request_body :=
  {| rq_prompt := Editor.r_prompt r;
     rq_modelName := Editor.r_selectedModel r;
     rq_temperature := Editor.r_temperature r |}.

(** Events of the page that start no call and resume none. *)
Definition quiet (e : Editor.event) : bool :=
  match e with
  | Editor.TypePrompt _ | Editor.ToggleAutoGenerate => true
  | _ => false
  end.

(** Rounds of the auto-generate loop: in each, after some quiet events,
    the pending timer fires and the call it makes resumes with a payload. *)
Fixpoint auto_rounds (l : list (list Editor.event * payload))
    : list Editor.event :=
  match l with
  | [] => []
  | (es, data) :: l' =>
      es ++ Editor.TimerFires 0 :: Editor.FetchSettles 0 (Body data)
         :: auto_rounds l'
  end.

Definition not_toggle (e : Editor.event) : bool :=
  match e with
  | Editor.ToggleAutoGenerate => false
  | _ => true
  end.

(** The state of the editor while Auto-generate has never been on. *)
Definition single_flight (st : Editor.state) : Prop :=
  Editor.timers st = []
  /\ Editor.r_autoGenerate (Editor.current st) = false
  /\ ((Editor.inflight st = []
       /\ Editor.r_isGenerating (Editor.current st) = false)
      \/ (exists r, Editor.inflight st = [r]
                    /\ Editor.r_autoGenerate r = false
                    /\ Editor.r_isGenerating (Editor.current st) = true)).

(** ** Editor.js: getTimestamp and the names of the saved files *)

(** [/[:.]/g] *)
Definition re_colon_dot : regex :=
  Cls (fun c => (c =? ch ":") || (c =? ch "."))%N.

(** [String.prototype.slice(0, -k)] *)
Definition slice_0_neg (k : nat) (s : jsstring) : jsstring :=
  firstn (length s - k) s.

(** [getTimestamp], as a function of the text [now.toISOString()] gives. *)
Definition getTimestamp (iso : jsstring) : jsstring :=
  slice_0_neg 5 (gsub (exec re_colon_dot) (lit "-") None iso).

(** A date in UTC, and [Date.prototype.toISOString] for the years 0 to
    9999: [YYYY-MM-DDTHH:mm:ss.sssZ]. *)
Record utc : Type := {
  year : nat; month : nat; day : nat;
  hours : nat; minutes : nat; seconds : nat; milliseconds : nat
}.

Definition digit (n : nat) : jschar := N.of_nat (48 + n mod 10).
Definition pad2 (n : nat) : jsstring := [digit (n / 10); digit n].
Definition pad3 (n : nat) : jsstring := digit (n / 100) :: pad2 n.
Definition pad4 (n : nat) : jsstring := digit (n / 1000) :: pad3 n.

Definition toISOString (d : utc) : jsstring :=
  pad4 (year d) ++ lit "-" ++ pad2 (month d) ++ lit "-" ++ pad2 (day d)
  ++ lit "T" ++ pad2 (hours d) ++ lit ":" ++ pad2 (minutes d) ++ lit ":"
  ++ pad2 (seconds d) ++ lit "." ++ pad3 (milliseconds d) ++ lit "Z".

(** The [download] names of [handleSaveCode] and of the screenshot
    handler. *)
Definition code_file_name (iso : jsstring) : jsstring :=
  lit "p5js-sketch-" ++ getTimestamp iso ++ lit ".js".

Definition screenshot_file_name (iso : jsstring) : jsstring :=
  lit "p5js-sketch-" ++ getTimestamp iso ++ lit ".png".

(** ** Editor.js: screenshots and auto-save *)

(** The data of a [message] event: an object with a [type] and, for a
    screenshot, the image as a data URL. *)
Record message : Type := {
  m_type : jsstring;
  m_data : option jsstring
}.

(** What a download link points to: a blob made of the source, or the URL
    taken from a message. *)
Inductive href : Type :=
| BlobOf (code : jsval)
| UrlOf (data : option jsstring).

Record download : Type := {
  d_name : jsstring;
  d_href : href
}.

(** The listener the frame's document installs; [canvas] is the image
    [toDataURL] would give for the first canvas, if there is a canvas. *)
Definition frame_onmessage (canvas : option jsstring) (m : message)
    : option message :=
  if str_eqb (m_type m) (lit "takeScreenshot") then
    match canvas with
    | Some dataUrl =>
        Some {| m_type := lit "screenshot"; m_data := Some dataUrl |}
    | None => None
    end
  else None.

(** [handleMessage] of the page; [iso] is the clock when it runs. *)
Definition handleMessage (iso : jsstring) (m : message) : option download :=
  if str_eqb (m_type m) (lit "screenshot") then
    Some {| d_name := screenshot_file_name iso; d_href := UrlOf (m_data m) |}
  else None.

(** [handleScreenshot]: the message posted to the frame, if there is one. *)
Definition handleScreenshot (f : option iframe) : option message :=
  match f with
  | Some _ => Some {| m_type := lit "takeScreenshot"; m_data := None |}
  | None => None
  end.

(** [handleSaveCode] of a render that holds [code]. *)
Definition handleSaveCode (code : jsval) (iso : jsstring) : download :=
  {| d_name := code_file_name iso; d_href := BlobOf code |}.

Definition jsval_eqb (a b : jsval) : bool :=
  match a, b with
  | JUndefined, JUndefined => true
  | JString x, JString y => str_eqb x y
  | _, _ => false
  end.

Module AutoSave.

Record state : Type := {
  editor : Editor.state;
  autoSave : bool;
  next_timer : nat;
  save_timers : list (nat * jsval);   (* pending timers: id, source to save *)
  cleanup : option nat;               (* the timer the last effect run set *)
  to_frame : list message;            (* posted to the frame, oldest first *)
  downloads : list download           (* latest first *)
}.

Definition with_editor (ed : Editor.state) (st : state) : state :=
  {| editor := ed; autoSave := autoSave st; next_timer := next_timer st;
     save_timers := save_timers st; cleanup := cleanup st;
     to_frame := to_frame st; downloads := downloads st |}.

Definition clearTimeout (id : nat) (st : state) : state :=
  {| editor := editor st; autoSave := autoSave st;
     next_timer := next_timer st;
     save_timers := filter (fun t => negb (fst t =? id)) (save_timers st);
     cleanup := cleanup st;
     to_frame := to_frame st; downloads := downloads st |}.

(** The cleanup the previous run of the effect returned, if it did. *)
Definition run_cleanup (st : state) : state :=
  match cleanup st with
  | Some id => clearTimeout id st
  | None => st
  end.

(** [setTimeout(() => { handleScreenshot(); handleSaveCode(); }, 500)]
    in a render that holds [code], and the cleanup that clears it. *)
Definition schedule (code : jsval) (st : state) : state :=
  {| editor := editor st; autoSave := autoSave st;
     next_timer := S (next_timer st);
     save_timers := save_timers st ++ [(next_timer st, code)];
     cleanup := Some (next_timer st);
     to_frame := to_frame st; downloads := downloads st |}.

Definition no_cleanup (st : state) : state :=
  {| editor := editor st; autoSave := autoSave st;
     next_timer := next_timer st; save_timers := save_timers st;
     cleanup := None;
     to_frame := to_frame st; downloads := downloads st |}.

(** One run of the effect on [code], [updatePreview], [autoSave], ...,
    with the functions of the current render: the old cleanup, then
    [updatePreview()], then the timer when auto-save is on. *)
Definition effect (st : state) : option state :=
  let st := run_cleanup st in
  let r := Editor.current (editor st) in
  match Editor.updatePreview r (editor st) with
  | None => None
  | Some ed =>
      if autoSave st then Some (schedule (Editor.r_code r) (with_editor ed st))
      else Some (no_cleanup (with_editor ed st))
  end.

(** The effects after a render: when the first run sets [normalizedCode]
    a second render follows and the effect runs again. *)
Definition commit (st : state) : option state :=
  match effect st with
  | None => None
  | Some st1 =>
      if str_eqb (Editor.r_normalizedCode (Editor.current (editor st1)))
                 (Editor.r_normalizedCode (Editor.current (editor st)))
      then Some st1
      else effect st1
  end.

(** [onChange]: [setCode(value); updatePreview();] with the functions of
    the render on screen; a render and its effects follow when a cell
    changed. *)
Definition onChange (value : jsstring) (st : state) : option state :=
  let ed := editor st in
  match Editor.updatePreview (Editor.current ed)
          (Editor.setCode (JString value) ed) with
  | None => None
  | Some ed1 =>
      if jsval_eqb (Editor.r_code (Editor.current ed)) (JString value)
         && str_eqb (Editor.r_normalizedCode (Editor.current ed1))
                    (Editor.r_normalizedCode (Editor.current ed))
      then Some (with_editor ed1 st)
      else commit (with_editor ed1 st)
  end.

(** The Auto-save button: [setAutoSave(!autoSave)], a render, the effect. *)
Definition toggle (st : state) : option state :=
  commit
    {| editor := editor st; autoSave := negb (autoSave st);
       next_timer := next_timer st; save_timers := save_timers st;
       cleanup := cleanup st;
       to_frame := to_frame st; downloads := downloads st |}.

(** The timer [id] fires while the clock shows [iso]. *)
Definition fire (id : nat) (iso : jsstring) (st : state) : state :=
  match find (fun t => fst t =? id) (save_timers st) with
  | None => st
  | Some (_, code) =>
      {| editor := editor st; autoSave := autoSave st;
         next_timer := next_timer st;
         save_timers := filter (fun t => negb (fst t =? id)) (save_timers st);
         cleanup := cleanup st;
         to_frame :=
           to_frame st
           ++ match handleScreenshot (Editor.iframeRef (editor st)) with
              | Some m => [m]
              | None => []
              end;
         downloads := handleSaveCode code iso :: downloads st |}
  end.

(** The frame handles the oldest message posted to it, and the page the
    answer, if one comes. *)
Definition deliver (canvas : option jsstring) (iso : jsstring) (st : state)
    : state :=
  match to_frame st with
  | [] => st
  | m :: rest =>
      {| editor := editor st; autoSave := autoSave st;
         next_timer := next_timer st; save_timers := save_timers st;
         cleanup := cleanup st;
         to_frame := rest;
         downloads :=
           match frame_onmessage canvas m with
           | Some answer =>
               match handleMessage iso answer with
               | Some d => d :: downloads st
               | None => downloads st
               end
           | None => downloads st
           end |}
  end.

Fixpoint edit (values : list jsstring) (st : state) : option state :=
  match values with
  | [] => Some st
  | v :: rest =>
      match onChange v st with
      | Some st' => edit rest st'
      | None => None
      end
  end.

Definition mounted : state :=
  {| editor := Editor.mounted; autoSave := false; next_timer := 0;
     save_timers := []; cleanup := None; to_frame := []; downloads := [] |}.

End AutoSave.

(** The auto-save timers agree with the effect that set them: none is
    pending, or only the one the cleanup of the last run will clear. *)
Definition one_save_pending (st : AutoSave.state) : Prop :=
  AutoSave.save_timers st = []
  \/ exists id code,
       AutoSave.save_timers st = [(id, code)]
       /\ AutoSave.cleanup st = Some id.

(** Values that each differ from the one before, [c] being the first
    "before". *)
Fixpoint each_differs (c : jsstring) (values : list jsstring) : Prop :=
  match values with
  | [] => True
  | v :: rest => c <> v /\ each_differs v rest
  end.

(** * Properties *)

(** ** Unfolding of the recursive definitions *)

Lemma gsub_nil m rep prev :
  gsub m rep prev [] = match m prev [] with Some _ => rep | None => [] end.
Proof. simp gsub. destruct (m prev []); reflexivity. Qed.

Lemma gsub_cons m rep prev c s' :
  gsub m rep prev (c :: s') =
  match m prev (c :: s') with
  | Some (S n) => rep ++ gsub m rep (Some (prev_at c s' n)) (skipn n s')
  | Some 0 => rep ++ c :: gsub m rep (Some c) s'
  | None => c :: gsub m rep (Some c) s'
  end.
Proof. simp gsub. destruct (m prev (c :: s')) as [[|n]|]; reflexivity. Qed.

Lemma strip_comments_cons c s' :
  strip_comments (c :: s') =
  match comment_at (c :: s') with
  | Some n => strip_comments (skipn (pred n) s')
  | None => c :: strip_comments s'
  end.
Proof. simp strip_comments. destruct (comment_at (c :: s')); reflexivity. Qed.

Lemma collapse_spaces_cons c s' :
  collapse_spaces (c :: s') =
  if is_space c then SP :: collapse_spaces (drop_while is_space s')
  else c :: collapse_spaces s'.
Proof. simp collapse_spaces. destruct (is_space c); reflexivity. Qed.

Lemma split_from_cons sep cur c s' :
  split_from sep cur (c :: s') =
  if starts_with sep (c :: s')
  then rev cur :: split_from sep [] (skipn (pred (length sep)) s')
  else split_from sep (c :: cur) s'.
Proof. simp split_from. destruct (starts_with sep (c :: s')); reflexivity. Qed.

Example normalizeCode_ex1 :
  normalizeCode (lit "a /* x */ b // c") = lit "a b".
Proof. vm_compute. reflexivity. Qed.

Example extractCode_ex1 :
  extractCode (lines [lit "```javascript"; lit "foo()"; lit "```"]) = lit "foo()".
Proof. vm_compute. reflexivity. Qed.

(** ** What the three regular expressions match *)

Lemma any_char_true c : any_char c = true.
Proof. unfold any_char. destruct (is_space c); reflexivity. Qed.

Lemma star_greedy_final p n prev s :
  star_greedy p n prev s (fun n _ _ => Some n)
  = Some (n + length (take_while p s)).
Proof.
  revert n prev. induction s as [|c s IH]; intros n prev; simpl.
  - f_equal. lia.
  - destruct (p c); simpl.
    + rewrite IH. f_equal. lia.
    + f_equal. lia.
Qed.

Lemma exec_re_spaces prev s : exec re_spaces prev s = space_run s.
Proof.
  unfold exec, re_spaces. destruct s as [|c s]; simpl; [reflexivity|].
  destruct (is_space c); [|reflexivity].
  rewrite star_greedy_final. reflexivity.
Qed.

Lemma star_lazy_block_end n prev s :
  star_lazy any_char n prev s
    (fun n' prev' s' =>
       rmatch (Seq (Chr STAR) (Chr SLASH)) n' prev' s' (fun n _ _ => Some n))
  = option_map (fun j => n + j) (block_end s).
Proof.
  revert n prev. induction s as [|c s IH]; intros n prev.
  - reflexivity.
  - cbn [star_lazy rmatch block_end]. rewrite any_char_true.
    destruct (N.eqb_spec c STAR) as [->|Hc].
    + destruct s as [|d s'].
      * reflexivity.
      * destruct (N.eqb_spec d SLASH) as [->|Hd].
        -- simpl. f_equal. lia.
        -- cbn [andb]. rewrite IH.
           destruct (block_end (d :: s')); simpl; [f_equal; lia|reflexivity].
    + cbn [andb]. rewrite IH. destruct s as [|d s'].
      * reflexivity.
      * destruct (block_end (d :: s')); simpl; [f_equal; lia|reflexivity].
Qed.

Lemma exec_re_comments prev s : exec re_comments prev s = comment_at s.
Proof.
  unfold exec, re_comments, comment_at.
  destruct s as [|c [|d r]]; cbn [rmatch].
  - reflexivity.
  - destruct (c =? SLASH)%N; reflexivity.
  - destruct (N.eqb_spec c SLASH) as [->|Hc]; [|reflexivity].
    destruct (N.eqb_spec d STAR) as [->|Hd].
    + pose proof (star_lazy_block_end 2 (Some STAR) r) as H.
      cbn [rmatch] in H. rewrite H.
      destruct (block_end r); reflexivity.
    + destruct (N.eqb_spec d SLASH) as [->|Hd']; [|reflexivity].
      rewrite star_greedy_final. reflexivity.
Qed.

(** ** The regex pipeline and the direct definitions agree *)

Lemma length_ind (A : Type) (P : list A -> Prop) :
  (forall s, (forall t, length t < length s -> P t) -> P s) ->
  forall s, P s.
Proof.
  intros step s. remember (length s) as n eqn:Hn.
  revert s Hn. induction n as [n IH] using lt_wf_ind.
  intros s ->. apply step. intros t Ht. exact (IH _ Ht t eq_refl).
Qed.

Lemma skipn_take_while p s :
  skipn (length (take_while p s)) s = drop_while p s.
Proof.
  induction s as [|c s IH]; simpl; [reflexivity|].
  destruct (p c); simpl; [exact IH|reflexivity].
Qed.

Lemma take_drop_while p s : take_while p s ++ drop_while p s = s.
Proof.
  induction s as [|c s IH]; simpl; [reflexivity|].
  destruct (p c); simpl; [f_equal; exact IH|reflexivity].
Qed.

Lemma block_end_bounds s j : block_end s = Some j -> 2 <= j <= length s.
Proof.
  revert j. induction s as [|c s IH]; intros j; simpl; [discriminate|].
  destruct s as [|d s']; [discriminate|].
  destruct ((c =? STAR) && (d =? SLASH))%N.
  - intros [= <-]. simpl. lia.
  - destruct (block_end (d :: s')) as [i|]; [|discriminate].
    intros [= <-]. specialize (IH i eq_refl). simpl in *. lia.
Qed.

Lemma take_while_length p s : length (take_while p s) <= length s.
Proof.
  induction s as [|c s IH]; simpl; [lia|]. destruct (p c); simpl; lia.
Qed.

Lemma comment_at_bounds s n : comment_at s = Some n -> 2 <= n <= length s.
Proof.
  unfold comment_at. destruct s as [|c [|d r]]; try discriminate.
  destruct (c =? SLASH)%N; [|discriminate].
  destruct (d =? STAR)%N.
  - destruct (block_end r) as [j|] eqn:E; [|discriminate].
    intros [= <-]. apply block_end_bounds in E. simpl. lia.
  - destruct (d =? SLASH)%N; [|discriminate].
    intros [= <-]. pose proof (take_while_length dot r). simpl. lia.
Qed.

Lemma gsub_re_comments prev s :
  gsub (exec re_comments) [] prev s = strip_comments s.
Proof.
  revert prev. induction s as [s IH] using length_ind. intros prev.
  destruct s as [|c s'].
  - rewrite gsub_nil, exec_re_comments. reflexivity.
  - rewrite gsub_cons, exec_re_comments, strip_comments_cons.
    destruct (comment_at (c :: s')) as [[|n]|] eqn:E.
    + apply comment_at_bounds in E. lia.
    + simpl. apply IH. rewrite length_skipn. simpl. lia.
    + f_equal. apply IH. simpl. lia.
Qed.

Lemma gsub_re_spaces prev s :
  gsub (exec re_spaces) [SP] prev s = collapse_spaces s.
Proof.
  revert prev. induction s as [s IH] using length_ind. intros prev.
  destruct s as [|c s'].
  - rewrite gsub_nil, exec_re_spaces. reflexivity.
  - rewrite gsub_cons, exec_re_spaces, collapse_spaces_cons.
    unfold space_run. destruct (is_space c).
    + simpl. f_equal. rewrite IH.
      * now rewrite skipn_take_while.
      * rewrite length_skipn. simpl. lia.
    + f_equal. apply IH. simpl. lia.
Qed.

Lemma normalizeCode_unfold code : normalizeCode code = normalizeCode_spec code.
Proof.
  unfold normalizeCode, normalizeCode_spec.
  now rewrite gsub_re_comments, gsub_re_spaces.
Qed.

(** ** No comment survives normalisation *)

Lemma comment_at_head c s n : comment_at (c :: s) = Some n -> c = SLASH.
Proof.
  unfold comment_at. destruct s as [|d r]; [discriminate|].
  destruct (N.eqb_spec c SLASH); [auto|discriminate].
Qed.

Lemma comment_at_not_slash c s : c <> SLASH -> comment_at (c :: s) = None.
Proof.
  intros Hc. destruct (comment_at (c :: s)) eqn:E; [|reflexivity].
  apply comment_at_head in E. contradiction.
Qed.

(** [/] followed by [s] starts no comment: [s] does not start with [/],
    and if it starts with [*] no [*/] follows. *)
Lemma comment_at_slash_none s :
  comment_at (SLASH :: s) = None <->
  match s with
  | [] => True
  | d :: r => d <> SLASH /\ (d = STAR -> block_end r = None)
  end.
Proof.
  unfold comment_at. destruct s as [|d r]; [tauto|].
  rewrite N.eqb_refl.
  destruct (N.eqb_spec d STAR) as [->|Hd].
  - destruct (block_end r); simpl; split.
    + discriminate.
    + intros [_ H]. discriminate (H eq_refl).
    + intros _. split; [discriminate|reflexivity].
    + reflexivity.
  - destruct (N.eqb_spec d SLASH) as [->|Hd'].
    + split; [discriminate|]. intros [H _]. contradiction.
    + split; [|reflexivity]. intros _. split; [assumption|contradiction].
Qed.

Lemma strip_comments_head s d q :
  strip_comments s = d :: q ->
  (exists s', s = d :: s' /\ q = strip_comments s') \/
  (exists s', s = SLASH :: s').
Proof.
  destruct s as [|c s']; [simp strip_comments; discriminate|].
  rewrite strip_comments_cons.
  destruct (comment_at (c :: s')) eqn:E.
  - intros _. right. apply comment_at_head in E. subst. eauto.
  - intros [= -> <-]. left. eauto.
Qed.

Lemma block_end_tail c s : block_end (c :: s) = None -> block_end s = None.
Proof.
  simpl. destruct s as [|d s']; [reflexivity|].
  destruct ((c =? STAR) && (d =? SLASH))%N; [discriminate|].
  destruct (block_end (d :: s')); [discriminate|reflexivity].
Qed.

Lemma block_end_skipn k s : block_end s = None -> block_end (skipn k s) = None.
Proof.
  revert s. induction k as [|k IH]; intros s H; [exact H|].
  destruct s as [|c s]; [reflexivity|].
  simpl skipn. apply IH. exact (block_end_tail _ _ H).
Qed.

Lemma block_end_cons_none c s :
  block_end s = None ->
  (c = STAR -> match s with d :: _ => d <> SLASH | [] => True end) ->
  block_end (c :: s) = None.
Proof.
  intros Hs Hc. simpl. destruct s as [|d s']; [reflexivity|].
  rewrite Hs. destruct (N.eqb_spec c STAR) as [->|]; [|reflexivity].
  destruct (N.eqb_spec d SLASH) as [->|]; [|reflexivity].
  exfalso. now apply Hc.
Qed.

Lemma block_end_strip_comments s :
  block_end s = None -> block_end (strip_comments s) = None.
Proof.
  induction s as [s IH] using length_ind. intros H.
  destruct s as [|c s']; [reflexivity|].
  rewrite strip_comments_cons.
  destruct (comment_at (c :: s')) as [n|] eqn:E.
  - apply IH.
    + rewrite length_skipn. simpl. lia.
    + apply block_end_skipn. exact (block_end_tail _ _ H).
  - apply block_end_cons_none.
    + apply IH; [simpl; lia|]. exact (block_end_tail _ _ H).
    + intros ->. destruct (strip_comments s') as [|d q] eqn:Es; [exact I|].
      intros ->. apply strip_comments_head in Es.
      destruct Es as [(s'' & -> & _)|(s'' & ->)]; discriminate H.
Qed.

Lemma strip_comments_clean s : has_comment (strip_comments s) = false.
Proof.
  induction s as [s IH] using length_ind.
  destruct s as [|c s']; [reflexivity|].
  rewrite strip_comments_cons.
  destruct (comment_at (c :: s')) as [n|] eqn:E.
  - apply IH. rewrite length_skipn. simpl. lia.
  - cbn [has_comment]. rewrite (IH s') by (simpl; lia).
    rewrite orb_false_r.
    destruct (N.eq_dec c SLASH) as [->|Hc];
      [|now rewrite comment_at_not_slash].
    apply comment_at_slash_none in E.
    replace (comment_at (SLASH :: strip_comments s')) with (@None nat);
      [reflexivity|].
    symmetry. apply comment_at_slash_none.
    destruct (strip_comments s') as [|d q] eqn:Es; [exact I|].
    apply strip_comments_head in Es.
    destruct Es as [(s'' & -> & ->)|(s'' & ->)].
    + destruct E as [Hd Hb]. split; [exact Hd|].
      intros Hstar. apply block_end_strip_comments. auto.
    + destruct E as [Hd _]. contradiction.
Qed.

Lemma is_space_SP : is_space SP = true.
Proof. reflexivity. Qed.

Lemma drop_while_head p s :
  match drop_while p s with d :: _ => p d = false | [] => True end.
Proof.
  induction s as [|c s IH]; simpl; [exact I|].
  destruct (p c) eqn:E; [exact IH|exact E].
Qed.

Lemma drop_while_length p s : length (drop_while p s) <= length s.
Proof.
  induction s as [|c s IH]; simpl; [lia|]. destruct (p c); simpl; lia.
Qed.

Lemma drop_while_id p s :
  match s with d :: _ => p d = false | [] => True end -> drop_while p s = s.
Proof. destruct s as [|c s]; simpl; [reflexivity|]. now intros ->. Qed.

Lemma drop_while_idem p s : drop_while p (drop_while p s) = drop_while p s.
Proof. apply drop_while_id, drop_while_head. Qed.

Lemma drop_while_skipn p s : exists k, drop_while p s = skipn k s.
Proof. exists (length (take_while p s)). symmetry. apply skipn_take_while. Qed.

(** A non-blank head of the collapsed text is the head of the text. *)
Lemma collapse_spaces_head s d q :
  collapse_spaces s = d :: q -> is_space d = false ->
  exists s', s = d :: s' /\ q = collapse_spaces s'.
Proof.
  destruct s as [|c s']; [simp collapse_spaces; discriminate|].
  rewrite collapse_spaces_cons. destruct (is_space c) eqn:E.
  - intros [= <- _]. rewrite is_space_SP. discriminate.
  - intros [= -> <-] _. eauto.
Qed.

Lemma has_comment_tail c s : has_comment (c :: s) = false -> has_comment s = false.
Proof. cbn [has_comment]. intros H. apply orb_false_elim in H. tauto. Qed.

Lemma has_comment_skipn k s : has_comment s = false -> has_comment (skipn k s) = false.
Proof.
  revert s. induction k as [|k IH]; intros s H; [exact H|].
  destruct s as [|c s]; [reflexivity|].
  simpl skipn. apply IH. exact (has_comment_tail _ _ H).
Qed.

Lemma has_comment_head c s : has_comment (c :: s) = false -> comment_at (c :: s) = None.
Proof.
  cbn [has_comment]. intros H. apply orb_false_elim in H.
  destruct (comment_at (c :: s)); [destruct H; discriminate|reflexivity].
Qed.

Lemma has_comment_cons c s :
  comment_at (c :: s) = None -> has_comment s = false ->
  has_comment (c :: s) = false.
Proof. intros H1 H2. cbn [has_comment]. now rewrite H1, H2. Qed.

Lemma block_end_collapse_spaces s :
  block_end s = None -> block_end (collapse_spaces s) = None.
Proof.
  induction s as [s IH] using length_ind. intros H.
  destruct s as [|c s']; [reflexivity|].
  rewrite collapse_spaces_cons. destruct (is_space c) eqn:Ec.
  - apply block_end_cons_none; [|discriminate].
    destruct (drop_while_skipn is_space s') as [k Hk].
    apply IH.
    + pose proof (drop_while_length is_space s'). simpl. lia.
    + rewrite Hk. apply block_end_skipn. exact (block_end_tail _ _ H).
  - apply block_end_cons_none.
    + apply IH; [simpl; lia|]. exact (block_end_tail _ _ H).
    + intros ->. destruct (collapse_spaces s') as [|d q] eqn:Es; [exact I|].
      intros ->. apply collapse_spaces_head in Es; [|reflexivity].
      destruct Es as (s'' & -> & _). discriminate H.
Qed.

Lemma collapse_spaces_clean s :
  has_comment s = false -> has_comment (collapse_spaces s) = false.
Proof.
  induction s as [s IH] using length_ind. intros H.
  destruct s as [|c s']; [reflexivity|].
  rewrite collapse_spaces_cons. destruct (is_space c) eqn:Ec.
  - apply has_comment_cons; [now apply comment_at_not_slash|].
    destruct (drop_while_skipn is_space s') as [k Hk].
    apply IH.
    + pose proof (drop_while_length is_space s'). simpl. lia.
    + rewrite Hk. apply has_comment_skipn. exact (has_comment_tail _ _ H).
  - apply has_comment_cons;
      [|apply IH; [simpl; lia|exact (has_comment_tail _ _ H)]].
    destruct (N.eq_dec c SLASH) as [->|Hc];
      [|now apply comment_at_not_slash].
    apply has_comment_head, comment_at_slash_none in H.
    apply comment_at_slash_none.
    destruct (collapse_spaces s') as [|d q] eqn:Es; [exact I|].
    destruct (is_space d) eqn:Ed.
    + split; [intros ->; discriminate|intros ->; discriminate].
    + apply collapse_spaces_head in Es; [|exact Ed].
      destruct Es as (s'' & -> & ->). destruct H as [Hd Hb].
      split; [exact Hd|]. intros Hstar.
      apply block_end_collapse_spaces. auto.
Qed.

(** ** Trimming *)

Lemma trim_start_suffix s : exists k, trim_start s = skipn k s.
Proof. apply drop_while_skipn. Qed.

Lemma trim_end_split s :
  exists w, s = trim_end s ++ w /\ forallb is_space w = true.
Proof.
  unfold trim_end, trim_start.
  exists (rev (take_while is_space (rev s))). split.
  - rewrite <- rev_app_distr, take_drop_while. now rewrite rev_involutive.
  - rewrite forallb_forall. intros x Hx. apply in_rev in Hx.
    induction (rev s) as [|c t IH]; simpl in Hx; [contradiction|].
    destruct (is_space c) eqn:E; [|contradiction].
    destruct Hx as [<-|Hx]; auto.
Qed.

Lemma trim_end_idem s : trim_end (trim_end s) = trim_end s.
Proof.
  unfold trim_end, trim_start. rewrite rev_involutive.
  now rewrite drop_while_idem.
Qed.

Lemma trim_end_head s :
  match s with d :: _ => is_space d = false | [] => True end ->
  match trim_end s with d :: _ => is_space d = false | [] => True end.
Proof.
  intros H. destruct (trim_end_split s) as (w & Hs & _).
  destruct (trim_end s) as [|d t]; [exact I|].
  rewrite Hs in H. exact H.
Qed.

Lemma trim_idem s : trim (trim s) = trim s.
Proof.
  unfold trim.
  replace (trim_start (trim_end (trim_start s))) with (trim_end (trim_start s)).
  - apply trim_end_idem.
  - symmetry. apply drop_while_id, trim_end_head, drop_while_head.
Qed.

Lemma block_end_cons2 c d r :
  block_end (c :: d :: r) =
  if ((c =? STAR) && (d =? SLASH))%N then Some 2
  else option_map S (block_end (d :: r)).
Proof. reflexivity. Qed.

Lemma block_end_app r b j : block_end r = Some j -> block_end (r ++ b) = Some j.
Proof.
  revert j. induction r as [|c r IH]; intros j; [discriminate|].
  destruct r as [|d r']; [discriminate|].
  change ((c :: d :: r') ++ b) with (c :: d :: (r' ++ b)).
  rewrite !block_end_cons2.
  destruct ((c =? STAR) && (d =? SLASH))%N; [auto|].
  destruct (block_end (d :: r')) as [i|] eqn:E; [|discriminate].
  intros [= <-]. change (d :: r' ++ b) with ((d :: r') ++ b).
  now rewrite (IH i eq_refl).
Qed.

Lemma comment_at_app a b n :
  comment_at a = Some n -> exists n', comment_at (a ++ b) = Some n'.
Proof.
  unfold comment_at. destruct a as [|c [|d r]]; try discriminate.
  change ((c :: d :: r) ++ b) with (c :: d :: (r ++ b)). cbv iota.
  destruct (c =? SLASH)%N; [|discriminate].
  destruct (d =? STAR)%N.
  - destruct (block_end r) as [j|] eqn:E; [|discriminate].
    intros _. rewrite (block_end_app _ b E). simpl. eauto.
  - destruct (d =? SLASH)%N; [eauto|discriminate].
Qed.

Lemma has_comment_prefix a b :
  has_comment (a ++ b) = false -> has_comment a = false.
Proof.
  induction a as [|c a IH]; intros H; [reflexivity|].
  simpl app in H. apply has_comment_cons.
  - destruct (comment_at (c :: a)) as [n|] eqn:E; [|reflexivity].
    destruct (comment_at_app (c :: a) b E) as [n' E'].
    simpl app in E'. apply has_comment_head in H. congruence.
  - apply IH. exact (has_comment_tail _ _ H).
Qed.

Lemma trim_clean s : has_comment s = false -> has_comment (trim s) = false.
Proof.
  intros H. unfold trim.
  destruct (trim_end_split (trim_start s)) as (w & Hs & _).
  apply has_comment_prefix with (b := w). rewrite <- Hs.
  destruct (trim_start_suffix s) as [k ->]. now apply has_comment_skipn.
Qed.

Lemma normalizeCode_clean s : has_comment (normalizeCode s) = false.
Proof.
  rewrite normalizeCode_unfold. unfold normalizeCode_spec.
  apply trim_clean, collapse_spaces_clean, strip_comments_clean.
Qed.

(** ** White space after normalisation *)

Lemma collapse_spaces_head_keeps s :
  match s with d :: _ => is_space d = false | [] => True end ->
  match collapse_spaces s with d :: _ => is_space d = false | [] => True end.
Proof.
  destruct s as [|c s']; [intros _; now simp collapse_spaces|].
  intros E. rewrite collapse_spaces_cons, E. exact E.
Qed.

Lemma collapse_spaces_single s : single_spaced (collapse_spaces s) = true.
Proof.
  induction s as [s IH] using length_ind.
  destruct s as [|c s']; [reflexivity|].
  rewrite collapse_spaces_cons. destruct (is_space c) eqn:Ec.
  - cbn [single_spaced]. rewrite is_space_SP, N.eqb_refl.
    rewrite IH by (pose proof (drop_while_length is_space s'); simpl; lia).
    pose proof (collapse_spaces_head_keeps _ (drop_while_head is_space s')) as Hh.
    destruct (collapse_spaces (drop_while is_space s')) as [|d q];
      [reflexivity|]. now rewrite Hh.
  - cbn [single_spaced]. rewrite Ec. apply IH. simpl. lia.
Qed.

Lemma single_spaced_tail c s : single_spaced (c :: s) = true -> single_spaced s = true.
Proof. cbn [single_spaced]. intros H. apply andb_prop in H. tauto. Qed.

Lemma single_spaced_skipn k s : single_spaced s = true -> single_spaced (skipn k s) = true.
Proof.
  revert s. induction k as [|k IH]; intros s H; [exact H|].
  destruct s as [|c s]; [reflexivity|].
  simpl skipn. apply IH. exact (single_spaced_tail _ _ H).
Qed.

Lemma single_spaced_prefix a b :
  single_spaced (a ++ b) = true -> single_spaced a = true.
Proof.
  induction a as [|c a IH]; intros H; [reflexivity|].
  simpl app in H. cbn [single_spaced] in *.
  apply andb_prop in H. destruct H as [H1 H2].
  rewrite (IH H2), andb_true_r.
  destruct (is_space c); [|reflexivity].
  apply andb_prop in H1. destruct H1 as [-> H1].
  destruct a as [|d a']; [reflexivity|exact H1].
Qed.

Lemma trim_single s : single_spaced s = true -> single_spaced (trim s) = true.
Proof.
  intros H. unfold trim.
  destruct (trim_end_split (trim_start s)) as (w & Hs & _).
  apply single_spaced_prefix with (b := w). rewrite <- Hs.
  destruct (trim_start_suffix s) as [k ->]. now apply single_spaced_skipn.
Qed.

Lemma single_spaced_no_double s :
  single_spaced s = true -> has_double_space s = false.
Proof.
  induction s as [|c s IH]; [reflexivity|].
  intros H. cbn [has_double_space].
  rewrite (IH (single_spaced_tail _ _ H)), orb_false_r.
  cbn [single_spaced] in H. apply andb_prop in H. destruct H as [H _].
  destruct s as [|d s']; [reflexivity|].
  destruct (is_space c); [|reflexivity].
  apply andb_prop in H. destruct H as [_ H].
  now destruct (is_space d).
Qed.

Lemma normalizeCode_single s : single_spaced (normalizeCode s) = true.
Proof.
  rewrite normalizeCode_unfold. unfold normalizeCode_spec.
  apply trim_single, collapse_spaces_single.
Qed.

(** ** Fixed points of the three passes *)

Lemma strip_comments_id s : has_comment s = false -> strip_comments s = s.
Proof.
  induction s as [|c s IH]; intros H; [reflexivity|].
  rewrite strip_comments_cons, (has_comment_head _ _ H).
  f_equal. apply IH. exact (has_comment_tail _ _ H).
Qed.

Lemma collapse_spaces_id s : single_spaced s = true -> collapse_spaces s = s.
Proof.
  induction s as [|c s IH]; intros H; [reflexivity|].
  rewrite collapse_spaces_cons.
  pose proof (IH (single_spaced_tail _ _ H)) as IHs.
  cbn [single_spaced] in H. apply andb_prop in H. destruct H as [H _].
  destruct (is_space c).
  - apply andb_prop in H. destruct H as [Hc Hd].
    apply N.eqb_eq in Hc. subst c.
    rewrite drop_while_id.
    + now rewrite IHs.
    + destruct s as [|d s']; [exact I|]. now destruct (is_space d).
  - now rewrite IHs.
Qed.

Lemma normalizeCode_idem s : normalizeCode (normalizeCode s) = normalizeCode s.
Proof.
  rewrite (normalizeCode_unfold (normalizeCode s)). unfold normalizeCode_spec.
  rewrite strip_comments_id by apply normalizeCode_clean.
  rewrite collapse_spaces_id by apply normalizeCode_single.
  rewrite normalizeCode_unfold. unfold normalizeCode_spec. apply trim_idem.
Qed.

Lemma starts_with_line_comment s :
  starts_with [SLASH; SLASH] s = true -> exists n, comment_at s = Some n.
Proof.
  destruct s as [|c [|d r]]; cbn [starts_with]; try discriminate.
  - now rewrite andb_false_r.
  - rewrite andb_true_r. intros H. apply andb_prop in H. destruct H as [Hc Hd].
    apply N.eqb_eq in Hc, Hd. subst c d. unfold comment_at.
    change (SLASH =? SLASH)%N with true. change (SLASH =? STAR)%N with false.
    cbv iota. eauto.
Qed.

Lemma has_comment_no_slashes s :
  has_comment s = false -> includes [SLASH; SLASH] s = false.
Proof.
  induction s as [|c s IH]; intros H; [reflexivity|].
  cbn [includes]. rewrite (IH (has_comment_tail _ _ H)), orb_false_r.
  destruct (starts_with [SLASH; SLASH] (c :: s)) eqn:E; [|reflexivity].
  apply starts_with_line_comment in E. destruct E as [n E].
  apply has_comment_head in H. congruence.
Qed.

Lemma block_end_none_includes r :
  block_end r = None -> includes [STAR; SLASH] r = false.
Proof.
  induction r as [|c r IH]; intros H; [reflexivity|].
  cbn [includes]. rewrite (IH (block_end_tail _ _ H)), orb_false_r.
  destruct r as [|d r']; cbn [starts_with]; [now rewrite andb_false_r|].
  rewrite block_end_cons2 in H. rewrite andb_true_r.
  rewrite (N.eqb_sym STAR c), (N.eqb_sym SLASH d).
  destruct ((c =? STAR) && (d =? SLASH))%N; [discriminate|reflexivity].
Qed.

Lemma has_comment_no_blocks s :
  has_comment s = false -> has_block_comment s = false.
Proof.
  induction s as [|c s IH]; intros H; [reflexivity|].
  cbn [has_block_comment]. rewrite (IH (has_comment_tail _ _ H)), orb_false_r.
  apply has_comment_head in H.
  change (lit "/*") with [SLASH; STAR]. change (lit "*/") with [STAR; SLASH].
  destruct s as [|d r]; cbn [starts_with skipn].
  - now rewrite andb_false_r.
  - rewrite andb_true_r.
    destruct (N.eqb_spec SLASH c) as [<-|]; [|reflexivity].
    destruct (N.eqb_spec STAR d) as [<-|]; [|reflexivity].
    apply comment_at_slash_none in H. destruct H as [_ H].
    cbn [andb]. apply block_end_none_includes. now apply H.
Qed.

(** ** The normalizer *)

Lemma forallb_take_while p s : forallb p (take_while p s) = true.
Proof.
  induction s as [|c s IH]; [reflexivity|]. cbn [take_while].
  destruct (p c) eqn:E; [|reflexivity]. cbn [forallb]. now rewrite E.
Qed.

(** What trimming does, said without [trim]: the text is white space, the
    trimmed text, white space; and the trimmed text neither begins nor
    ends with white space. *)
Lemma trim_split s :
  exists w1 w2,
    s = w1 ++ trim s ++ w2
    /\ forallb is_space w1 = true /\ forallb is_space w2 = true.
Proof.
  unfold trim. destruct (trim_end_split (trim_start s)) as (w & Hw & Hall).
  exists (take_while is_space s), w. rewrite <- Hw. unfold trim_start.
  split; [symmetry; apply take_drop_while|].
  split; [apply forallb_take_while|exact Hall].
Qed.

Lemma trim_first s :
  match trim s with d :: _ => is_space d = false | [] => True end.
Proof. unfold trim, trim_start. apply trim_end_head, drop_while_head. Qed.

Lemma trim_last s :
  match rev (trim s) with d :: _ => is_space d = false | [] => True end.
Proof.
  unfold trim, trim_end at 1. rewrite rev_involutive.
  unfold trim_start at 1. apply drop_while_head.
Qed.

(** The class [\s], and the characters [trim] removes. *)
Lemma is_space_iff (c : jschar) :
  is_space c = true <->
  In c [9; 10; 11; 12; 13; 32; 160; 5760; 8192; 8193; 8194; 8195; 8196;
        8197; 8198; 8199; 8200; 8201; 8202; 8232; 8233; 8239; 8287; 12288;
        65279]%N.
Proof.
  unfold is_space.
  rewrite !orb_true_iff, andb_true_iff, !N.eqb_eq, !N.leb_le. cbn [In].
  unfold jschar in *. lia.
Qed.

Lemma is_line_terminator_iff (c : jschar) :
  is_line_terminator c = true <-> In c [10; 13; 8232; 8233]%N.
Proof.
  unfold is_line_terminator.
  rewrite !orb_true_iff, !N.eqb_eq. cbn [In].
  unfold jschar in *. lia.
Qed.

(** C7 (amended). [normalizeCode] is a total function on strings: the
    empty string is mapped to the empty string, and every input to the
    input with each stretch of text from [/*] through the next [*/] and
    from [//] to the end of its line removed, whether or not the stretch
    is a comment of the program, each remaining run of white space
    replaced by one space, and the white space at the two ends taken off:
    the result neither begins nor ends with white space, and what was cut
    at the ends is white space only.  White space is the class [\s] of
    JavaScript, and a line ends at LF, CR, U+2028 or U+2029. *)
Theorem normalizeCode_removes_comments_collapses_trims :
  normalizeCode [] = []
  /\ (forall code : jsstring,
        normalizeCode code = trim (collapse_spaces (strip_comments code))
        /\ (exists w1 w2,
              collapse_spaces (strip_comments code)
              = w1 ++ normalizeCode code ++ w2
              /\ forallb is_space w1 = true /\ forallb is_space w2 = true)
        /\ match normalizeCode code with
           | c :: _ => is_space c = false
           | [] => True
           end
        /\ match rev (normalizeCode code) with
           | c :: _ => is_space c = false
           | [] => True
           end)
  /\ (forall c : jschar,
        is_space c = true <->
        In c [9; 10; 11; 12; 13; 32; 160; 5760; 8192; 8193; 8194; 8195;
              8196; 8197; 8198; 8199; 8200; 8201; 8202; 8232; 8233; 8239;
              8287; 12288; 65279]%N)
  /\ (forall c : jschar, dot c = false <-> In c [10; 13; 8232; 8233]%N)
  /\ normalizeCode
       ([9; 11; 160; 65279]%N ++ lit "a//x" ++ [13]%N ++ lit "b//y"
        ++ [8232]%N ++ lit "c//z" ++ [8233]%N ++ lit "d//w" ++ [11; 12; 133]%N
        ++ lit "e" ++ [10]%N ++ lit "f" ++ [8203; 6158]%N ++ lit "/*"
        ++ [10; 13]%N ++ lit "*/g  h" ++ [12288; 5760; 32]%N)
     = lit "a b c d f" ++ [8203; 6158]%N ++ lit "g h".
Proof.
  split; [reflexivity|]. split; [|split; [|split]].
  - intros code. rewrite normalizeCode_unfold. unfold normalizeCode_spec.
    split; [reflexivity|]. split; [apply trim_split|].
    split; [apply trim_first|apply trim_last].
  - exact is_space_iff.
  - intros c. unfold dot. rewrite negb_false_iff.
    apply is_line_terminator_iff.
  - vm_compute. reflexivity.
Qed.

(** C7, as stated, fails: in a program whose string literals hold [/*]
    and [*/], or [//], there is no comment to remove, the white space is
    single and the ends are trimmed, yet [normalizeCode] cuts text out of
    the literals. *)
Lemma normalizeCode_cuts_string_literals :
  let a := lit "s = '/*'; t = '*/';" in
  let b := lit "let u = 'http://a.example';" in
  strip_lexical_comments InCode a = a
  /\ normalizeCode_lexical a = a
  /\ normalizeCode a = lit "s = '';"
  /\ normalizeCode a <> normalizeCode_lexical a
  /\ strip_lexical_comments InCode b = b
  /\ normalizeCode_lexical b = b
  /\ normalizeCode b = lit "let u = 'http:"
  /\ normalizeCode b <> normalizeCode_lexical b.
Proof.
  vm_compute. repeat split; discriminate.
Qed.

(** Where the program keeps its comments outside its string literals the
    two readings agree. *)
Example normalizeCode_lexical_ex :
  let code :=
    lines [lit "a('x'); // one"; lit "  /* two"; lit " */ b();"] in
  normalizeCode_lexical code = lit "a('x'); b();"
  /\ normalizeCode code = lit "a('x'); b();".
Proof. vm_compute. split; reflexivity. Qed.

(** C8. The output of [normalizeCode] has no position at which a comment
    starts, so no [//] and no [/*] with a [*/] after it, no two adjacent
    white-space characters, and normalizing it again changes nothing. *)
Theorem normalizeCode_output_clean_and_idempotent (s : jsstring) :
  has_comment (normalizeCode s) = false /\
  includes (lit "//") (normalizeCode s) = false /\
  has_block_comment (normalizeCode s) = false /\
  has_double_space (normalizeCode s) = false /\
  normalizeCode (normalizeCode s) = normalizeCode s.
Proof.
  split; [apply normalizeCode_clean|].
  split; [apply has_comment_no_slashes, normalizeCode_clean|].
  split; [apply has_comment_no_blocks, normalizeCode_clean|].
  split; [apply single_spaced_no_double, normalizeCode_single|].
  apply normalizeCode_idem.
Qed.

(** ** Splitting and joining *)

Lemma starts_with_skipn sep s :
  starts_with sep s = true -> sep ++ skipn (length sep) s = s.
Proof.
  revert s. induction sep as [|a sep IH]; intros s H; [reflexivity|].
  destruct s as [|b s]; [discriminate|].
  cbn [starts_with] in H. apply andb_prop in H. destruct H as [Hab Hs].
  apply N.eqb_eq in Hab. subst b. cbn [length skipn app].
  now rewrite (IH s Hs).
Qed.

Lemma split_from_not_nil sep cur s : split_from sep cur s <> [].
Proof.
  revert cur. induction s as [|c s IH]; intros cur.
  - simp split_from. discriminate.
  - rewrite split_from_cons. destruct (starts_with sep (c :: s));
      [discriminate|apply IH].
Qed.

Lemma join_cons sep x l : l <> [] -> join sep (x :: l) = x ++ sep ++ join sep l.
Proof. destruct l; [contradiction|reflexivity]. Qed.

Lemma join_split_from sep cur s :
  sep <> [] -> join sep (split_from sep cur s) = rev cur ++ s.
Proof.
  intros Hsep. revert cur. induction s as [s IH] using length_ind. intros cur.
  destruct s as [|c s'].
  - simp split_from. cbn [join]. now rewrite app_nil_r.
  - rewrite split_from_cons.
    destruct (starts_with sep (c :: s')) eqn:E.
    + rewrite join_cons by apply split_from_not_nil.
      rewrite IH by (rewrite length_skipn; simpl; lia).
      cbn [rev app]. f_equal.
      pose proof (starts_with_skipn sep (c :: s') E) as Hs.
      destruct sep as [|a sep']; [contradiction|exact Hs].
    + rewrite IH by (simpl; lia). cbn [rev]. now rewrite <- app_assoc.
Qed.

(** Joining the segments with the separator gives the text back. *)
Lemma join_split sep s : sep <> [] -> join sep (split sep s) = s.
Proof.
  intros Hsep. unfold split. destruct sep as [|a sep']; [contradiction|].
  exact (@join_split_from (a :: sep') [] s Hsep).
Qed.

Example split_ex1 :
  split FENCE (lit "a```b```c") = [lit "a"; lit "b"; lit "c"].
Proof. vm_compute. reflexivity. Qed.

Example split_ex2 : split FENCE [] = [[]].
Proof. vm_compute. reflexivity. Qed.

Example normalizeCode_ex2 :
  normalizeCode (lines [lit "a(); // one"; lit "  /* two"; lit " */ b();"])
  = lit "a(); b();".
Proof. vm_compute. reflexivity. Qed.

(** A [/*] that is never closed is not a comment and stays. *)
Example normalizeCode_ex3 : normalizeCode (lit "x /*/ y") = lit "x /*/ y".
Proof. vm_compute. reflexivity. Qed.

(** ** Fence extraction *)

Lemma rmatch_Lits l c n prev s :
  rmatch (Lits l (Chr c)) n prev s (fun n _ _ => Some n)
  = if starts_with (l ++ [c]) s then Some (n + length (l ++ [c])) else None.
Proof.
  revert n prev s. induction l as [|a l IH]; intros n prev s.
  - cbn [Lits rmatch app starts_with length]. destruct s as [|x s']; [reflexivity|].
    rewrite (N.eqb_sym c x). destruct (x =? c)%N; [|reflexivity].
    cbn [andb]. destruct s'; f_equal; lia.
  - cbn [Lits rmatch app starts_with length]. destruct s as [|x s']; [reflexivity|].
    rewrite (N.eqb_sym a x). destruct (x =? a)%N; [|reflexivity].
    cbn [andb]. rewrite IH.
    destruct (starts_with (l ++ [c]) s'); [f_equal; lia|reflexivity].
Qed.

Lemma exec_re_language_tag prev s :
  exec re_language_tag prev s
  = if at_line_start prev && starts_with TAG_LINE s
    then Some (length TAG_LINE) else None.
Proof.
  unfold exec, re_language_tag. cbn [rmatch].
  destruct (at_line_start prev); [|reflexivity].
  cbn [andb]. apply (rmatch_Lits (lit "javascript") LF 0 prev s).
Qed.

Lemma replace_first_language_tag prev s :
  replace_first (exec re_language_tag) [] prev s
  = remove_tag_line (at_line_start prev) s.
Proof.
  revert prev. induction s as [|c s IH]; intros prev.
  - cbn [replace_first remove_tag_line]. rewrite exec_re_language_tag.
    now destruct (at_line_start prev && starts_with TAG_LINE []).
  - cbn [replace_first remove_tag_line]. rewrite exec_re_language_tag.
    destruct (at_line_start prev && starts_with TAG_LINE (c :: s));
      [reflexivity|].
    f_equal. apply IH.
Qed.

(** With a tag line at the very start, the first line-start occurrence is
    the leading one. *)
Lemma remove_tag_line_leading s :
  starts_with TAG_LINE s = true -> remove_tag_line true s = strip_leading_tag s.
Proof.
  intros H. unfold strip_leading_tag. rewrite H.
  destruct s; cbn [remove_tag_line]; rewrite H; reflexivity.
Qed.

Lemma extractCode_fenced text :
  includes FENCE text = true ->
  extractCode text = trim (remove_tag_line true (fenced_bodies text)).
Proof.
  intros H. unfold extractCode. rewrite H.
  now rewrite replace_first_language_tag.
Qed.

Lemma extractCode_unfenced text :
  includes FENCE text = false -> extractCode text = text.
Proof. intros H. unfold extractCode. now rewrite H. Qed.

(** C2 (amended). For a response text that contains a fence marker, the
    extracted code is: the text split on the marker, the segments at odd
    indices kept and joined with a newline, the first [javascript] line
    that begins at the start of a line removed, and the result trimmed.
    When the joined bodies begin with that tag line, it is the leading
    line that goes.  For the fenced one-liner [foo()] tagged [javascript]
    the extraction is exactly [foo()]. *)
Theorem extractCode_of_fenced_response (text : jsstring) :
  includes FENCE text = true ->
  extractCode text
  = trim (remove_tag_line true
            (join [LF] (filter_index odd_index 0 (split FENCE text))))
  /\ (starts_with TAG_LINE (fenced_bodies text) = true ->
      extractCode text = extractCode_spec text)
  /\ extractCode (lines [lit "```javascript"; lit "foo()"; lit "```"])
     = lit "foo()".
Proof.
  intros H. split; [exact (extractCode_fenced text H)|]. split.
  - intros Htag. rewrite (extractCode_fenced text H).
    unfold extractCode_spec. now rewrite remove_tag_line_leading.
  - vm_compute. reflexivity.
Qed.

Lemma extractCode_of_fenced_response_witness :
  includes FENCE (lines [lit "```javascript"; lit "foo()"; lit "```"]) = true
  /\ extractCode (lines [lit "```javascript"; lit "foo()"; lit "```"])
     = extractCode_spec (lines [lit "```javascript"; lit "foo()"; lit "```"]).
Proof.
  split; [vm_compute; reflexivity|].
  apply (extractCode_of_fenced_response
           (lines [lit "```javascript"; lit "foo()"; lit "```"]));
    vm_compute; reflexivity.
Defined.

(** C2, as stated, fails: with no leading tag, a [javascript] line inside
    the fenced body is removed, which removing a leading tag line only
    would keep. *)
Lemma extractCode_not_only_leading_tag :
  let text :=
    lines [lit "```"; lit "foo()"; lit "javascript"; lit "bar()"; lit "```"] in
  includes FENCE text = true
  /\ extractCode_spec text = lines [lit "foo()"; lit "javascript"; lit "bar()"]
  /\ extractCode text = lines [lit "foo()"; lit "bar()"]
  /\ extractCode text <> extractCode_spec text.
Proof.
  vm_compute. repeat split; discriminate.
Qed.

(** C3 (amended). A response text without a fence marker is returned as
    it is, not trimmed: by the extraction, and so by the route. *)
Theorem extractCode_of_unfenced_response (text : jsstring) :
  includes FENCE text = false ->
  extractCode text = text
  /\ forall request vendor,
       vendor request = Returned text ->
       POST (Returned request) vendor
       = Some {| status := 200;
                 body := {| p_code := Some text; p_error := None |} |}.
Proof.
  intros H. split; [exact (extractCode_unfenced text H)|].
  intros request vendor Hv. unfold POST.
  now rewrite Hv, (extractCode_unfenced text H).
Qed.

Lemma extractCode_of_unfenced_response_witness :
  includes FENCE (lit " foo() ") = false
  /\ extractCode (lit " foo() ") = lit " foo() ".
Proof.
  split; [vm_compute; reflexivity|].
  apply (extractCode_of_unfenced_response (lit " foo() ")).
  vm_compute; reflexivity.
Defined.

(** C3, as stated, fails: an unfenced response with blanks at its ends
    keeps them. *)
Lemma unfenced_response_is_not_trimmed :
  let text := lit " foo() " in
  includes FENCE text = false
  /\ trim text = lit "foo()"
  /\ extractCode text = lit " foo() "
  /\ extractCode text <> trim text.
Proof.
  vm_compute. repeat split; discriminate.
Qed.

(** C9. The tag removal of the extraction takes out the first
    [javascript] line that begins at the start of any line of the joined
    bodies, not only a leading one: a response whose fenced body has the
    line [javascript] in its middle and no leading tag loses that line, on
    the route and in the direct-client variant alike. *)
Theorem language_tag_strip_removes_interior_line :
  (forall prev joined,
     replace_first (exec re_language_tag) [] prev joined
     = remove_tag_line (at_line_start prev) joined)
  /\ let text :=
       lines [lit "```"; lit "let javascript = 1"; lit "javascript";
              lit "draw()"; lit "```"] in
     includes FENCE text = true
     /\ fenced_bodies text
        = lines [lit ""; lit "let javascript = 1"; lit "javascript";
                 lit "draw()"; lit ""]
     /\ starts_with TAG_LINE (trim (fenced_bodies text)) = false
     /\ extractCode text = lines [lit "let javascript = 1"; lit "draw()"]
     /\ DirectClient.code (DirectClient.generated text DirectClient.mounted)
        = lines [lit "let javascript = 1"; lit "draw()"].
Proof.
  split; [exact replace_first_language_tag|].
  vm_compute. repeat split; reflexivity.
Qed.

(** ** The generation route *)


(** The handler returns no response exactly when [null] or [undefined] was
    thrown: the [catch] block then throws on [error.message]. *)
Lemma POST_no_response json vendor :
  POST json vendor = None <->
  json = ThrewNullish
  \/ exists request, json = Returned request /\ vendor request = ThrewNullish.
Proof.
  unfold POST. destruct json as [request|message|].
  - destruct (vendor request) as [text|message|] eqn:E; split;
      try discriminate.
    + intros [H|(rq & [= <-] & H)]; congruence.
    + intros [H|(rq & [= <-] & H)]; congruence.
    + intros _. right. now exists request.
    + reflexivity.
  - split; [discriminate|]. intros [H|(rq & H & _)]; discriminate H.
  - split; [now left|reflexivity].
Qed.



(** ** The preview *)

Lemma str_eqb_eq a b : str_eqb a b = true <-> a = b.
Proof.
  revert b. induction a as [|x a IH]; intros [|y b]; simpl; split;
    try discriminate; try reflexivity.
  - intros H. apply andb_prop in H. destruct H as [Hx Ha].
    apply N.eqb_eq in Hx. apply IH in Ha. congruence.
  - intros [= -> ->]. rewrite N.eqb_refl. now apply IH.
Qed.

Lemma str_eqb_refl a : str_eqb a a = true.
Proof. now apply str_eqb_eq. Qed.

Lemma updatePreview_noop r st code :
  Editor.r_code r = JString code ->
  normalizeCode code = Editor.r_normalizedCode r ->
  Editor.updatePreview r st = Some st.
Proof.
  intros Hc Hn. unfold Editor.updatePreview. rewrite Hc, Hn.
  now rewrite str_eqb_refl.
Qed.

Lemma mounted_synced : synced INITIAL_CODE 1 Editor.mounted.
Proof.
  split.
  - exists INITIAL_CODE. split; reflexivity.
  - reflexivity.
  - reflexivity.
Qed.

Lemma onChange_synced shown writes st v :
  synced shown writes st ->
  exists st',
    Editor.onChange v st = Some st'
    /\ Editor.r_code (Editor.current st') = JString v
    /\ if str_eqb (normalizeCode v) (normalizeCode shown)
       then synced shown writes st' /\ Editor.iframeRef st' = Editor.iframeRef st
       else synced v (S writes) st'.
Proof.
  intros [(c & Hc & Hcn) Hn Hf]. unfold Editor.onChange.
  rewrite (updatePreview_noop (Editor.current st) _ Hc) by congruence.
  unfold Editor.run_effects.
  destruct (str_eqb (normalizeCode v) (normalizeCode shown)) eqn:E.
  - apply str_eqb_eq in E.
    assert (Hnoop : Editor.updatePreview
                      (Editor.current (Editor.setCode (JString v) st))
                      (Editor.setCode (JString v) st)
                    = Some (Editor.setCode (JString v) st)).
    { apply updatePreview_noop with (code := v); [reflexivity|].
      cbn. congruence. }
    rewrite Hnoop, Hnoop. eexists. split; [reflexivity|].
    split; [reflexivity|]. split; [|reflexivity].
    split; cbn; [eauto|assumption|assumption].
  - unfold Editor.updatePreview at 1. cbn. rewrite Hn, E. cbn. rewrite Hf.
    rewrite updatePreview_noop with (code := v); [|reflexivity|reflexivity].
    eexists. split; [reflexivity|]. split; [reflexivity|].
    split; cbn; [eauto|reflexivity|reflexivity].
Qed.

Lemma edit_synced values : forall shown writes st,
  synced shown writes st ->
  exists st',
    Editor.edit values st = Some st'
    /\ synced (last_rendered shown values) (writes + reloads shown values) st'.
Proof.
  induction values as [|v rest IH]; intros shown writes st H.
  - exists st. cbn. rewrite Nat.add_0_r. auto.
  - destruct (onChange_synced v H) as (st1 & H1 & _ & H2).
    cbn [Editor.edit last_rendered reloads]. rewrite H1.
    destruct (str_eqb (normalizeCode v) (normalizeCode shown)).
    + destruct H2 as [H2 _]. exact (IH _ _ _ H2).
    + destruct (IH _ _ _ H2) as (st' & He & Hs). exists st'.
      split; [exact He|]. now rewrite <- Nat.add_succ_comm.
Qed.

(** C1 (amended). In the variant of the editor that has [normalizeCode]:
    after any sequence of edits the frame holds the document of the last
    source whose normalized form differed from that of the one on display,
    and an edit whose normalized form equals that of the source on display
    makes [updatePreview] leave the state as it is, so the frame's content
    is not assigned again. *)
Theorem updatePreview_skips_unchanged_normal_form
    (values : list jsstring) (v : jsstring) :
  normalizeCode v = normalizeCode (last_rendered INITIAL_CODE values) ->
  exists st st',
    Editor.edit values Editor.mounted = Some st
    /\ Editor.iframeRef st
       = Some {| srcdoc :=
                   getIframeContent (last_rendered INITIAL_CODE values);
                 srcdoc_writes := S (reloads INITIAL_CODE values) |}
    /\ Editor.updatePreview
         (Editor.current (Editor.setCode (JString v) st))
         (Editor.setCode (JString v) st)
       = Some (Editor.setCode (JString v) st)
    /\ Editor.onChange v st = Some st'
    /\ Editor.r_code (Editor.current st') = JString v
    /\ Editor.iframeRef st' = Editor.iframeRef st.
Proof.
  intros Hv.
  destruct (edit_synced values mounted_synced) as (st & He & Hs).
  destruct (onChange_synced v Hs) as (st' & Ho & Hc & Hi).
  rewrite Hv, str_eqb_refl in Hi. destruct Hi as [_ Hi].
  exists st, st'. split; [exact He|]. split; [apply Hs|].
  split; [|auto].
  apply updatePreview_noop with (code := v); [reflexivity|].
  cbn. rewrite Hv. symmetry. apply Hs.
Qed.

Lemma updatePreview_skips_unchanged_normal_form_witness :
  normalizeCode (lit "draw() // note")
  = normalizeCode (last_rendered INITIAL_CODE [lit "draw()"])
  /\ exists st st',
       Editor.edit [lit "draw()"] Editor.mounted = Some st
       /\ Editor.iframeRef st
          = Some {| srcdoc :=
                      getIframeContent
                        (last_rendered INITIAL_CODE [lit "draw()"]);
                    srcdoc_writes := S (reloads INITIAL_CODE [lit "draw()"]) |}
       /\ Editor.updatePreview
            (Editor.current (Editor.setCode (JString (lit "draw() // note")) st))
            (Editor.setCode (JString (lit "draw() // note")) st)
          = Some (Editor.setCode (JString (lit "draw() // note")) st)
       /\ Editor.onChange (lit "draw() // note") st = Some st'
       /\ Editor.r_code (Editor.current st') = JString (lit "draw() // note")
       /\ Editor.iframeRef st' = Editor.iframeRef st.
Proof.
  split; [vm_compute; reflexivity|].
  apply (updatePreview_skips_unchanged_normal_form
           [lit "draw()"] (lit "draw() // note")).
  vm_compute; reflexivity.
Defined.

(** C1, as stated, fails twice.  An edit that touches white space only
    can change the normal form: blanks put around an operator make the
    variant with [normalizeCode] assign the frame's content again.  And the
    direct-client variant assigns it on every edit, one that only adds a
    comment included. *)
Lemma blank_or_comment_edit_reloads_frame :
  (let a := lit "a+b" in
   let b := lit "a + b" in
   filter (fun c => negb (is_space c)) b = a
   /\ normalizeCode a = lit "a+b"
   /\ normalizeCode b = lit "a + b"
   /\ exists st st',
        Editor.edit [a] Editor.mounted = Some st
        /\ option_map srcdoc (Editor.iframeRef st) = Some (getIframeContent a)
        /\ option_map srcdoc_writes (Editor.iframeRef st) = Some 2
        /\ Editor.onChange b st = Some st'
        /\ option_map srcdoc (Editor.iframeRef st')
           = Some (getIframeContent b)
        /\ option_map srcdoc_writes (Editor.iframeRef st') = Some 3)
  /\ (let v := INITIAL_CODE ++ lit " // note" in
      let st := DirectClient.mounted in
      normalizeCode v = normalizeCode (DirectClient.code st)
      /\ option_map srcdoc_writes (DirectClient.iframeRef st) = Some 1
      /\ option_map srcdoc_writes
           (DirectClient.iframeRef (DirectClient.onChange v st)) = Some 2).
Proof.
  cbv zeta. split.
  - split; [reflexivity|]. split; [vm_compute; reflexivity|].
    split; [vm_compute; reflexivity|].
    destruct (Editor.edit [lit "a+b"] Editor.mounted) as [st|] eqn:He;
      [|vm_compute in He; discriminate He].
    destruct (Editor.onChange (lit "a + b") st) as [st'|] eqn:Ho;
      [|vm_compute in He; injection He as <-; vm_compute in Ho;
        discriminate Ho].
    exists st, st'. vm_compute in He. injection He as <-.
    vm_compute in Ho. injection Ho as <-.
    repeat split; vm_compute; reflexivity.
  - vm_compute. repeat split; reflexivity.
Qed.

(** C10. [normalizeCode] gives one result for two programs that differ in
    a character that is neither comment nor white space: the line-comment
    pattern cuts from [//] to the end of the line inside a string literal
    too.  An edit from one to the other leaves the frame as it was. *)
Theorem normalizeCode_conflates_distinct_programs :
  let a := lit "let u = 'http://a.example';" in
  let b := lit "let u = 'http://b.example';" in
  (exists p q x y,
     a = p ++ x :: q /\ b = p ++ y :: q /\ x <> y
     /\ is_space x = false /\ is_space y = false
     /\ p = lit "let u = 'http://")
  /\ normalizeCode a = lit "let u = 'http:"
  /\ normalizeCode b = normalizeCode a
  /\ exists st st',
       Editor.edit [a] Editor.mounted = Some st
       /\ option_map srcdoc (Editor.iframeRef st) = Some (getIframeContent a)
       /\ Editor.onChange b st = Some st'
       /\ Editor.r_code (Editor.current st') = JString b
       /\ Editor.iframeRef st' = Editor.iframeRef st.
Proof.
  cbv zeta. split; [|split; [|split]].
  - exists (lit "let u = 'http://"), (lit ".example';"), (ch "a"), (ch "b").
    repeat split; try reflexivity. discriminate.
  - vm_compute. reflexivity.
  - vm_compute. reflexivity.
  - destruct (edit_synced [lit "let u = 'http://a.example';"] mounted_synced)
      as (st & He & Hs).
    assert (Hshown : last_rendered INITIAL_CODE [lit "let u = 'http://a.example';"]
                     = lit "let u = 'http://a.example';")
      by (vm_compute; reflexivity).
    rewrite Hshown in Hs.
    destruct (onChange_synced (lit "let u = 'http://b.example';") Hs)
      as (st' & Ho & Hc & Hi).
    replace (str_eqb (normalizeCode (lit "let u = 'http://b.example';"))
               (normalizeCode (lit "let u = 'http://a.example';")))
      with true in Hi by (vm_compute; reflexivity).
    exists st, st'. split; [exact He|]. split.
    + destruct Hs as [_ _ ->]. reflexivity.
    + destruct Hi as [_ Hi]. auto.
Qed.

(** ** Generation *)

Lemma reachable_run es st : Editor.reachable st -> Editor.reachable (Editor.run es st).
Proof.
  revert st. induction es as [|e es IH]; intros st H; [exact H|].
  cbn [Editor.run]. apply IH. now constructor.
Qed.

(** A call made by a render that saw the flag set returns at once. *)
Lemma generateCode_guard r st :
  Editor.r_isGenerating r = true -> Editor.generateCode r st = st.
Proof. intros H. unfold Editor.generateCode. now rewrite H. Qed.

(** The button and the Enter key call the function of the render on
    screen, which sees the flag as it is. *)
Lemma page_call_while_generating st :
  Editor.r_isGenerating (Editor.current st) = true ->
  Editor.step Editor.ClickGenerate st = st
  /\ Editor.step Editor.PressEnter st = st.
Proof.
  intros H. cbn [Editor.step]. rewrite H. split; [|reflexivity].
  now apply generateCode_guard.
Qed.

Lemma generateCode_start r st :
  Editor.r_isGenerating r = false ->
  Editor.generateCode r st = Editor.fetch r (Editor.setIsGenerating true st).
Proof. intros H. unfold Editor.generateCode. now rewrite H. Qed.

Lemma click_twice_one_request st :
  Editor.r_isGenerating (Editor.current st) = false ->
  let st' := Editor.run [Editor.ClickGenerate; Editor.ClickGenerate] st in
  length (Editor.fetches st') = S (length (Editor.fetches st))
  /\ length (Editor.inflight st') = S (length (Editor.inflight st)).
Proof.
  intros H. cbn [Editor.run Editor.step].
  rewrite (generateCode_start _ st H).
  rewrite generateCode_guard by reflexivity.
  cbn. rewrite length_app. cbn. lia.
Qed.

Lemma generateCode_resume_clears_flag r res st :
  Editor.r_isGenerating (Editor.current (Editor.generateCode_resume r res st))
  = false.
Proof. reflexivity. Qed.

(** A rejected [fetch], a body that is not JSON, or a payload with a
    non-empty [error]: the source stays and the message is logged. *)
Lemma generateCode_resume_failure r res st message :
  res = NetworkError message \/ res = BodyNotJson message \/
  (exists data, res = Body data /\ p_error data = Some message
                /\ message <> []) ->
  let st' := Editor.generateCode_resume r res st in
  Editor.r_code (Editor.current st') = Editor.r_code (Editor.current st)
  /\ Editor.console st' = message :: Editor.console st
  /\ Editor.timers st' = Editor.timers st.
Proof.
  intros [->|[->|(data & -> & He & Hm)]]; cbn; auto.
  unfold Editor.generateCode_resume. rewrite He.
  destruct message as [|x m]; [contradiction|]. cbn. auto.
Qed.

(** C4: the single-flight guard misses the calls made by the timer of
    auto-generate.  The timer runs the [generateCode] of the render that
    started the finished call, which saw the flag clear; fired while a
    generation started from the page is in flight, it sends a second
    request, and two generations are in flight in a reachable state. *)
Theorem timer_call_overlaps_generation_in_flight :
  let ok := Body {| p_code := Some (lit "draw()"); p_error := None |} in
  let st :=
    Editor.run [Editor.ToggleAutoGenerate; Editor.ClickGenerate;
                Editor.FetchSettles 0 ok; Editor.ClickGenerate]
      Editor.mounted in
  let st' := Editor.step (Editor.TimerFires 0) st in
  Editor.reachable st'
  /\ Editor.r_isGenerating (Editor.current st) = true
  /\ length (Editor.inflight st) = 1
  /\ length (Editor.fetches st) = 2
  /\ length (Editor.inflight st') = 2
  /\ length (Editor.fetches st') = 3
  /\ ~ (forall s, Editor.reachable s -> length (Editor.inflight s) <= 1).
Proof.
  cbv zeta.
  assert (Hreach : Editor.reachable
            (Editor.step (Editor.TimerFires 0)
               (Editor.run
                  [Editor.ToggleAutoGenerate; Editor.ClickGenerate;
                   Editor.FetchSettles 0
                     (Body {| p_code := Some (lit "draw()");
                              p_error := None |});
                   Editor.ClickGenerate] Editor.mounted))).
  { constructor. apply reachable_run. constructor. }
  split; [exact Hreach|]. repeat split; try reflexivity.
  intros Hall. apply Hall in Hreach. cbn in Hreach. lia.
Qed.

(** C6: an error payload whose message is the empty string is not taken
    for a failure.  The route sends it when the vendor call throws an
    error without message; the client then replaces the sketch source by
    the absent [code] and logs nothing, and the preview effect that
    follows throws on the missing string. *)
Theorem empty_error_message_replaces_source :
  let response :=
    {| status := 500; body := {| p_code := None; p_error := Some [] |} |} in
  let st := Editor.step Editor.ClickGenerate Editor.mounted in
  let st' := Editor.step (Editor.FetchSettles 0 (Body (body response))) st in
  POST (Returned {| rq_prompt := []; rq_modelName := lit "gemini-2.0-flash";
                    rq_temperature := lit "1" |})
       (fun _ => Threw (Some [])) = Some response
  /\ is_error_response response = true
  /\ body response = {| p_code := None; p_error := Some [] |}
  /\ Editor.r_code (Editor.current st) = JString INITIAL_CODE
  /\ Editor.r_code (Editor.current st') = JUndefined
  /\ Editor.console st' = []
  /\ Editor.r_isGenerating (Editor.current st') = false
  /\ Editor.run_effects st' = None.
Proof.
  cbv zeta. repeat split; reflexivity.
Qed.

(** ** What the extraction leaves of the response *)

Lemma starts_with_iff p s :
  starts_with p s = true <-> exists b, s = p ++ b.
Proof.
  revert s. induction p as [|a p IH]; intros s.
  - split; [intros _; now exists s|reflexivity].
  - destruct s as [|x s]; cbn [starts_with].
    + split; [discriminate|intros [b H]; discriminate H].
    + rewrite andb_true_iff, N.eqb_eq, IH. split.
      * intros [-> [b ->]]. now exists b.
      * intros [b [= -> ->]]. split; [reflexivity|now exists b].
Qed.

Lemma includes_iff p s :
  includes p s = true <-> exists a b, s = a ++ p ++ b.
Proof.
  induction s as [|x s IH].
  - cbn [includes]. rewrite orb_false_r, starts_with_iff. split.
    + intros [b H]. now exists [], b.
    + intros (a & b & H). destruct a as [|y a]; [now exists b|discriminate H].
  - cbn [includes]. rewrite orb_true_iff, starts_with_iff, IH. split.
    + intros [[b H]|(a & b & H)].
      * now exists [], b.
      * exists (x :: a), b. now rewrite H.
    + intros (a & b & H). destruct a as [|y a].
      * left. now exists b.
      * right. injection H as _ H. now exists a, b.
Qed.

Lemma includes_factor p a s b :
  includes p (a ++ s ++ b) = false -> includes p s = false.
Proof.
  intros H. destruct (includes p s) eqn:E; [|reflexivity].
  apply includes_iff in E. destruct E as (u & v & ->).
  assert (Hin : includes p (a ++ (u ++ p ++ v) ++ b) = true).
  { apply includes_iff. exists (a ++ u), (v ++ b).
    now rewrite <- !app_assoc. }
  congruence.
Qed.

Lemma includes_prefix p s b : includes p (s ++ b) = false -> includes p s = false.
Proof. intros H. now apply (includes_factor p [] s b). Qed.

Lemma includes_suffix p a s : includes p (a ++ s) = false -> includes p s = false.
Proof.
  intros H. apply (includes_factor p a s []). now rewrite app_nil_r.
Qed.

(** A text cut at a character foreign to [p] holds [p] only inside one of
    the two parts. *)
Lemma includes_around p x d y :
  ~ In d p ->
  includes p x = false -> includes p y = false ->
  includes p (x ++ d :: y) = false.
Proof.
  intros Hd Hx Hy. destruct (includes p (x ++ d :: y)) eqn:E; [|reflexivity].
  exfalso. apply includes_iff in E. destruct E as (a & b & E).
  apply app_eq_app in E. destruct E as [l [[-> E]|[-> E]]].
  - (* the occurrence starts inside [x] *)
    apply app_eq_app in E.
    destruct E as [m [[-> E]|[-> E]]].
    + destruct m as [|e m].
      * rewrite app_nil_r in *.
        assert (includes l (a ++ l ++ []) = true)
          by (apply includes_iff; now exists a, []).
        rewrite app_nil_r in H. congruence.
      * injection E as <- _. apply Hd. apply in_or_app. right. now left.
    + assert (includes p (a ++ p ++ m) = true)
        by (apply includes_iff; now exists a, m).
      congruence.
  - (* the occurrence starts at [d] or after it *)
    destruct l as [|e l].
    + destruct p as [|e p]; [destruct x; discriminate Hx|].
      injection E as <- _. apply Hd. now left.
    + injection E as _ ->.
      assert (includes p (l ++ p ++ b) = true)
        by (apply includes_iff; now exists l, b).
      congruence.
Qed.

Lemma starts_with_app p s b : starts_with p s = true -> starts_with p (s ++ b) = true.
Proof.
  rewrite !starts_with_iff. intros [c ->]. exists (c ++ b).
  now rewrite app_assoc.
Qed.

(** No segment of a split holds the separator. *)
Lemma split_from_segments sep cur s :
  sep <> [] ->
  (forall a b, rev cur = a ++ b -> b <> [] -> starts_with sep (b ++ s) = false) ->
  Forall (fun seg => includes sep seg = false) (split_from sep cur s).
Proof.
  intros Hsep. revert cur. induction s as [s IH] using length_ind.
  intros cur Hcur.
  assert (Hseg : forall t, (forall a b, rev cur = a ++ b -> b <> [] ->
                              starts_with sep (b ++ t) = false) ->
                           includes sep (rev cur) = false).
  { intros t Ht. destruct (includes sep (rev cur)) eqn:E; [|reflexivity].
    apply includes_iff in E. destruct E as (a & b & E).
    assert (Hb : sep ++ b <> []) by (destruct sep; [contradiction|discriminate]).
    specialize (Ht a (sep ++ b) E Hb).
    rewrite <- app_assoc in Ht.
    assert (starts_with sep (sep ++ b ++ t) = true)
      by (apply starts_with_iff; now exists (b ++ t)).
    congruence. }
  destruct s as [|c s'].
  - simp split_from. constructor; [|constructor]. exact (Hseg [] Hcur).
  - rewrite split_from_cons. destruct (starts_with sep (c :: s')) eqn:E.
    + constructor; [exact (Hseg _ Hcur)|].
      apply IH; [rewrite length_skipn; simpl; lia|].
      intros a b Hab Hb. destruct a; destruct b; try discriminate Hab.
      contradiction.
    + apply IH; [simpl; lia|].
      intros a b Hab Hb. cbn [rev] in Hab.
      destruct (exists_last Hb) as (b' & z & ->).
      rewrite app_assoc in Hab. apply app_inj_tail in Hab.
      destruct Hab as [Hab ->]. rewrite <- app_assoc. cbn [app].
      destruct b' as [|y b'']; [exact E|].
      apply Hcur with (a := a); [exact Hab|discriminate].
Qed.

Lemma split_segments sep s :
  sep <> [] -> Forall (fun seg => includes sep seg = false) (split sep s).
Proof.
  intros Hsep. unfold split. destruct sep as [|a sep']; [contradiction|].
  apply split_from_segments; [exact Hsep|].
  intros u v Huv Hv. destruct u; destruct v; try discriminate Huv.
  contradiction.
Qed.

Lemma filter_index_Forall A (P : A -> Prop) f i (l : list A) :
  Forall P l -> Forall P (filter_index f i l).
Proof.
  intros H. revert i. induction H as [|x l Hx Hl IH]; intros i; cbn.
  - constructor.
  - destruct (f x i); [constructor; auto|auto].
Qed.

Lemma join_includes p d l :
  p <> [] -> ~ In d p ->
  Forall (fun seg => includes p seg = false) l ->
  includes p (join [d] l) = false.
Proof.
  intros Hp Hd H. induction H as [|x l Hx Hl IH].
  - destruct p; [contradiction|reflexivity].
  - destruct l as [|y l']; [exact Hx|].
    change (join [d] (x :: y :: l')) with (x ++ d :: join [d] (y :: l')).
    now apply includes_around.
Qed.

Lemma trim_factor s : exists a b, s = a ++ trim s ++ b.
Proof.
  unfold trim. destruct (trim_end_split (trim_start s)) as (w & Hw & _).
  exists (take_while is_space s), w. rewrite <- Hw. unfold trim_start.
  symmetry. apply take_drop_while.
Qed.

Lemma includes_trim p s : includes p s = false -> includes p (trim s) = false.
Proof.
  intros H. destruct (trim_factor s) as (a & b & Hs).
  rewrite Hs in H. exact (includes_factor _ _ _ _ H).
Qed.

(** Taking the tag line out joins the text before it, which is empty or
    ends a line, to the text after it. *)
Lemma remove_tag_line_shape line_start s :
  remove_tag_line line_start s = s \/
  exists pre suf,
    s = pre ++ TAG_LINE ++ suf /\ remove_tag_line line_start s = pre ++ suf
    /\ ((pre = [] /\ line_start = true)
        \/ exists pre' t, pre = pre' ++ [t] /\ is_line_terminator t = true).
Proof.
  revert line_start. induction s as [|c s IH]; intros line_start.
  - left. cbn [remove_tag_line].
    now destruct (line_start && starts_with TAG_LINE []).
  - cbn [remove_tag_line].
    destruct (line_start && starts_with TAG_LINE (c :: s)) eqn:E.
    + right. apply andb_prop in E. destruct E as [-> E].
      exists [], (skipn (length TAG_LINE) (c :: s)). split; [|auto].
      symmetry. now apply starts_with_skipn.
    + destruct (IH (is_line_terminator c)) as [H|(pre & suf & Hs & Hr & Hp)].
      * left. now rewrite H.
      * right. exists (c :: pre), suf. split; [now rewrite Hs|].
        split; [now rewrite Hr|]. right.
        destruct Hp as [[-> Hc]|(pre' & t & -> & Ht)].
        -- now exists [], c.
        -- exists (c :: pre'), t. auto.
Qed.

Lemma line_terminator_not_in_fence t :
  is_line_terminator t = true -> ~ In t FENCE.
Proof.
  intros Ht [<-|[<-|[<-|[]]]]; discriminate Ht.
Qed.

Lemma includes_remove_tag_line line_start s :
  includes FENCE s = false ->
  includes FENCE (remove_tag_line line_start s) = false.
Proof.
  intros H.
  destruct (remove_tag_line_shape line_start s)
    as [->|(pre & suf & Hs & -> & Hp)]; [exact H|].
  rewrite Hs in H.
  pose proof (includes_suffix _ _ _ (includes_suffix _ _ _ H)) as Hsuf.
  destruct Hp as [[-> _]|(pre' & t & -> & Ht)]; [exact Hsuf|].
  rewrite <- app_assoc. cbn [app].
  apply includes_around; [now apply line_terminator_not_in_fence| |exact Hsuf].
  apply (includes_prefix _ _ _ (includes_prefix _ _ _ H)).
Qed.

Lemma fenced_bodies_no_fence text : includes FENCE (fenced_bodies text) = false.
Proof.
  unfold fenced_bodies. apply join_includes.
  - discriminate.
  - apply line_terminator_not_in_fence. reflexivity.
  - apply filter_index_Forall, split_segments. discriminate.
Qed.

Lemma extractCode_no_fence text : includes FENCE (extractCode text) = false.
Proof.
  destruct (includes FENCE text) eqn:E.
  - rewrite extractCode_fenced by exact E.
    apply includes_trim, includes_remove_tag_line, fenced_bodies_no_fence.
  - now rewrite extractCode_unfenced.
Qed.

Lemma extractCode_idem text : extractCode (extractCode text) = extractCode text.
Proof. apply extractCode_unfenced, extractCode_no_fence. Qed.

Lemma includes_starts_with p s : includes p s = false -> starts_with p s = false.
Proof.
  destruct s; cbn [includes]; intros H; apply orb_false_elim in H; tauto.
Qed.

Lemma includes_tail p c s : includes p (c :: s) = false -> includes p s = false.
Proof. apply (includes_suffix p [c] s). Qed.

(** A stretch of text with no fence in it that does not end in a backtick
    is one segment up to the fence that follows. *)
Lemma split_from_before_fence a : forall cur rest,
  includes FENCE a = false -> last a 0%N <> BACKTICK ->
  split_from FENCE cur (a ++ FENCE ++ rest)
  = (rev cur ++ a) :: split_from FENCE [] rest.
Proof.
  induction a as [|c a' IH]; intros cur rest Hinc Hlast.
  - change ([] ++ FENCE ++ rest) with (BACKTICK :: BACKTICK :: BACKTICK :: rest).
    rewrite split_from_cons. cbn. now rewrite app_nil_r.
  - change ((c :: a') ++ FENCE ++ rest) with (c :: (a' ++ FENCE ++ rest)).
    rewrite split_from_cons.
    assert (Hs : starts_with FENCE (c :: a' ++ FENCE ++ rest) = false).
    { destruct a' as [|d [|e a'']].
      - cbn in Hlast. cbn [app starts_with FENCE lit].
        destruct (N.eqb_spec (ch "`") c) as [<-|]; [|reflexivity].
        now contradiction Hlast.
      - cbn in Hlast. cbn [app starts_with FENCE lit].
        destruct (N.eqb_spec (ch "`") d) as [<-|];
          [now contradiction Hlast|]. now rewrite andb_false_r.
      - apply includes_starts_with in Hinc. revert Hinc.
        cbn [app starts_with FENCE lit]. now rewrite !andb_true_r. }
    rewrite Hs, IH.
    + cbn [rev]. now rewrite <- app_assoc.
    + exact (includes_tail _ _ _ Hinc).
    + destruct a' as [|d a'']; [discriminate|exact Hlast].
Qed.

Lemma split_from_no_fence a : forall cur,
  includes FENCE a = false -> split_from FENCE cur a = [rev cur ++ a].
Proof.
  induction a as [|c a' IH]; intros cur Hinc.
  - simp split_from. now rewrite app_nil_r.
  - rewrite split_from_cons, (includes_starts_with _ _ Hinc), IH.
    + cbn [rev]. now rewrite <- app_assoc.
    + exact (includes_tail _ _ _ Hinc).
Qed.

(** X1. The extracted code never holds a fence marker, whatever the
    response: neither the code the route sends nor the source the
    direct-client variant installs. *)
Theorem extracted_code_has_no_fence (text : jsstring) :
  includes FENCE (extractCode text) = false
  /\ (forall request vendor,
        vendor request = Returned text ->
        exists response,
          POST (Returned request) vendor = Some response
          /\ option_map (includes FENCE) (p_code (body response))
             = Some false)
  /\ (forall st,
        includes FENCE (DirectClient.code (DirectClient.generated text st))
        = false).
Proof.
  split; [apply extractCode_no_fence|]. split.
  - intros request vendor H. unfold POST. rewrite H.
    eexists. split; [reflexivity|]. cbn.
    now rewrite extractCode_no_fence.
  - intros st. unfold DirectClient.generated, DirectClient.updatePreview.
    destruct (DirectClient.iframeRef _); apply extractCode_no_fence.
Qed.

(** X2. Extracting twice is extracting once: what the extraction returns
    is returned unchanged when it is fed back. *)
Theorem extractCode_idempotent (text : jsstring) :
  extractCode (extractCode text) = extractCode text.
Proof. apply extractCode_idem. Qed.

(** X3. One fenced block between two stretches of prose: when neither
    the prose before it nor the body holds a fence or ends in a backtick,
    and the prose after it holds no fence, the extraction is the body with
    its first tag line removed, trimmed; the prose is dropped. *)
Theorem extractCode_single_block (before block after : jsstring) :
  includes FENCE before = false -> last before 0%N <> BACKTICK ->
  includes FENCE block = false -> last block 0%N <> BACKTICK ->
  includes FENCE after = false ->
  extractCode (before ++ FENCE ++ block ++ FENCE ++ after)
  = trim (remove_tag_line true block).
Proof.
  intros Hb Hbl Hk Hkl Ha.
  rewrite extractCode_fenced
    by (apply includes_iff; now exists before, (block ++ FENCE ++ after)).
  unfold fenced_bodies, split. change FENCE with (lit "```") at 1.
  cbn [lit]. fold FENCE.
  change (ch "`" :: ch "`" :: ch "`" :: []) with FENCE.
  rewrite split_from_before_fence by assumption.
  rewrite split_from_before_fence by assumption.
  rewrite split_from_no_fence by assumption.
  reflexivity.
Qed.

Lemma extractCode_single_block_witness :
  extractCode (lit "Here you go: " ++ FENCE
               ++ lines [lit "javascript"; lit "let s = `a`;"; lit ""]
               ++ FENCE ++ lit " Enjoy!")
  = lit "let s = `a`;".
Proof.
  rewrite (@extractCode_single_block (lit "Here you go: ")
             (lines [lit "javascript"; lit "let s = `a`;"; lit ""])
             (lit " Enjoy!"));
    [vm_compute; reflexivity
    |vm_compute; reflexivity|discriminate
    |vm_compute; reflexivity|discriminate
    |vm_compute; reflexivity].
Defined.

(** X4. A fence that is never closed: with no fence in what follows it,
    the extraction is everything after the fence, with its first tag line
    removed, trimmed. *)
Theorem extractCode_unclosed_fence (before rest : jsstring) :
  includes FENCE before = false -> last before 0%N <> BACKTICK ->
  includes FENCE rest = false ->
  extractCode (before ++ FENCE ++ rest) = trim (remove_tag_line true rest).
Proof.
  intros Hb Hbl Hr.
  rewrite extractCode_fenced by (apply includes_iff; now exists before, rest).
  unfold fenced_bodies, split. change FENCE with (lit "```") at 1.
  cbn [lit]. fold FENCE.
  change (ch "`" :: ch "`" :: ch "`" :: []) with FENCE.
  rewrite split_from_before_fence by assumption.
  rewrite split_from_no_fence by assumption.
  reflexivity.
Qed.

Lemma extractCode_unclosed_fence_witness :
  extractCode (lit "Sure: " ++ FENCE ++ lines [lit "javascript"; lit "draw()"])
  = lit "draw()".
Proof.
  rewrite (@extractCode_unclosed_fence (lit "Sure: ")
             (lines [lit "javascript"; lit "draw()"]));
    [vm_compute; reflexivity
    |vm_compute; reflexivity|discriminate|vm_compute; reflexivity].
Defined.

(** ** More on generation *)

Lemma run_app es1 es2 st :
  Editor.run (es1 ++ es2) st = Editor.run es2 (Editor.run es1 st).
Proof.
  revert st. induction es1 as [|e es1 IH]; intros st; [reflexivity|].
  cbn [app Editor.run]. apply IH.
Qed.

Lemma quiet_step e st :
  quiet e = true ->
  Editor.timers (Editor.step e st) = Editor.timers st
  /\ Editor.inflight (Editor.step e st) = Editor.inflight st
  /\ Editor.fetches (Editor.step e st) = Editor.fetches st.
Proof. destruct e; try discriminate; intros _; cbn; auto. Qed.

Lemma quiet_run es st :
  forallb quiet es = true ->
  Editor.timers (Editor.run es st) = Editor.timers st
  /\ Editor.inflight (Editor.run es st) = Editor.inflight st
  /\ Editor.fetches (Editor.run es st) = Editor.fetches st.
Proof.
  revert st. induction es as [|e es IH]; intros st H; [cbn; auto|].
  cbn [forallb] in H. apply andb_prop in H. destruct H as [He Hes].
  cbn [Editor.run]. destruct (IH (Editor.step e st) Hes) as (-> & -> & ->).
  now apply quiet_step.
Qed.

(** One round: the timer's call passes the guard of the render that made
    it, and its success sets the next timer from the same render. *)
Lemma auto_round r data st :
  Editor.timers st = [r] -> Editor.inflight st = [] ->
  Editor.r_isGenerating r = false -> Editor.r_autoGenerate r = true ->
  truthy (p_error data) = false ->
  let st' := Editor.run [Editor.TimerFires 0;
                         Editor.FetchSettles 0 (Body data)] st in
  Editor.timers st' = [r] /\ Editor.inflight st' = []
  /\ Editor.fetches st' = request_of r :: Editor.fetches st.
Proof.
  intros Ht Hi Hg Ha Hd. cbn [Editor.run Editor.step].
  rewrite Ht. cbn [nth_error]. rewrite (generateCode_start _ _ Hg).
  cbn [Editor.fetch Editor.inflight Editor.clear_timer Editor.setIsGenerating
       Editor.with_current]. rewrite Hi. cbn [app nth_error].
  unfold Editor.generateCode_resume. rewrite Hd, Ha. cbn. rewrite Ht, Hi.
  auto.
Qed.

(** X5. Once a timer of auto-generate is pending, made by a render that
    saw Auto-generate on, the loop runs on whatever is done on the page:
    each time the timer fires a request is sent, although the toggle may
    be off by then, and it carries the prompt of the render that started
    the loop, not the one typed since; each success sets the next timer. *)
Theorem auto_generate_loop_ignores_the_page
    (r : Editor.render) (l : list (list Editor.event * payload))
    (st : Editor.state) :
  Editor.timers st = [r] -> Editor.inflight st = [] ->
  Editor.r_isGenerating r = false -> Editor.r_autoGenerate r = true ->
  Forall (fun round => forallb quiet (fst round) = true
                       /\ truthy (p_error (snd round)) = false) l ->
  let st' := Editor.run (auto_rounds l) st in
  Editor.timers st' = [r] /\ Editor.inflight st' = []
  /\ Editor.fetches st'
     = repeat (request_of r) (length l) ++ Editor.fetches st.
Proof.
  intros Ht Hi Hg Ha Hl. revert st Ht Hi.
  induction Hl as [|[es data] l [Hq Hd] Hl IH]; intros st Ht Hi; [cbn; auto|].
  cbn [auto_rounds fst snd] in *. rewrite run_app.
  destruct (quiet_run es st Hq) as (Ht1 & Hi1 & Hf1).
  rewrite <- Ht1 in Ht. rewrite <- Hi1 in Hi.
  destruct (auto_round data _ Ht Hi Hg Ha Hd) as (Ht2 & Hi2 & Hf2).
  change (Editor.run (Editor.TimerFires 0 :: Editor.FetchSettles 0 (Body data)
                        :: auto_rounds l) (Editor.run es st))
    with (Editor.run (auto_rounds l)
            (Editor.run [Editor.TimerFires 0; Editor.FetchSettles 0 (Body data)]
               (Editor.run es st))).
  destruct (IH _ Ht2 Hi2) as (Ht3 & Hi3 & Hf3).
  split; [exact Ht3|]. split; [exact Hi3|].
  rewrite Hf3, Hf2, Hf1. cbn [length repeat].
  change (request_of r :: Editor.fetches st)
    with ([request_of r] ++ Editor.fetches st).
  rewrite app_assoc. f_equal.
  change (request_of r :: repeat (request_of r) (length l))
    with (repeat (request_of r) (S (length l))).
  now rewrite <- repeat_cons.
Qed.

Lemma auto_generate_loop_ignores_the_page_witness :
  let ok := {| p_code := Some (lit "draw()"); p_error := None |} in
  let st :=
    Editor.run [Editor.ToggleAutoGenerate; Editor.TypePrompt (lit "a clock");
                Editor.ClickGenerate; Editor.FetchSettles 0 (Body ok)]
      Editor.mounted in
  let st' :=
    Editor.run
      (auto_rounds
         [([Editor.ToggleAutoGenerate; Editor.TypePrompt (lit "a tree")], ok);
          ([], ok)]) st in
  Editor.r_autoGenerate (Editor.current st') = false
  /\ Editor.r_prompt (Editor.current st') = lit "a tree"
  /\ length (Editor.timers st') = 1
  /\ map rq_prompt (Editor.fetches st')
     = [lit "a clock"; lit "a clock"; lit "a clock"].
Proof.
  cbv zeta.
  pose (ok := {| p_code := Some (lit "draw()"); p_error := None |}).
  pose (st := Editor.run
                [Editor.ToggleAutoGenerate; Editor.TypePrompt (lit "a clock");
                 Editor.ClickGenerate; Editor.FetchSettles 0 (Body ok)]
                Editor.mounted).
  destruct (@auto_generate_loop_ignores_the_page
              (hd (Editor.current st) (Editor.timers st))
              [([Editor.ToggleAutoGenerate; Editor.TypePrompt (lit "a tree")], ok);
               ([], ok)] st)
    as (Ht & _ & Hf);
    [reflexivity|reflexivity|reflexivity|reflexivity
    |repeat constructor|].
  split; [reflexivity|]. split; [reflexivity|].
  fold ok. fold st. rewrite Ht, Hf. split; reflexivity.
Defined.

(** X6. A call served by the route: the request it sends is that of the
    render that made it; when the vendor returns a text the sketch source
    becomes the extraction of that text and nothing is logged; when the
    vendor throws with a non-empty message the source stays and that
    message is logged; the flag is clear afterwards whatever the route
    answers.  When the vendor throws [null] or [undefined] the route
    returns no answer of its own. *)
Theorem generation_served_by_route
    (r : Editor.render) (st : Editor.state)
    (vendor : request_body -> outcome jsstring) :
  Editor.r_isGenerating r = false ->
  let sent := Editor.generateCode r st in
  let served := POST (Returned (request_of r)) vendor in
  let resume := fun answer : http_response =>
    Editor.generateCode_resume r (Body (body answer)) sent in
  Editor.fetches sent = request_of r :: Editor.fetches st
  /\ Editor.r_isGenerating (Editor.current sent) = true
  /\ (forall answer,
        Editor.r_isGenerating (Editor.current (resume answer)) = false)
  /\ match vendor (request_of r) with
     | Returned text =>
         exists answer, served = Some answer
         /\ Editor.r_code (Editor.current (resume answer))
            = JString (extractCode text)
         /\ Editor.console (resume answer) = Editor.console st
     | Threw (Some (c :: message)) =>
         exists answer, served = Some answer
         /\ Editor.r_code (Editor.current (resume answer))
            = Editor.r_code (Editor.current st)
         /\ Editor.console (resume answer)
            = (c :: message) :: Editor.console st
     | Threw _ =>
         exists answer, served = Some answer
         /\ Editor.r_code (Editor.current (resume answer)) = JUndefined
         /\ Editor.console (resume answer) = Editor.console st
     | ThrewNullish => served = None
     end.
Proof.
  intros Hg. cbv zeta. rewrite (generateCode_start _ _ Hg).
  split; [reflexivity|]. split; [reflexivity|]. split.
  - intros answer. destruct (body answer) as [[code|] [[|c m]|]];
      destruct (Editor.r_autoGenerate r); reflexivity.
  - unfold POST.
    destruct (vendor (request_of r)) as [text|[[|c message]|]|].
    5: reflexivity.
    all: eexists; split; [reflexivity|].
    all: cbn; destruct (Editor.r_autoGenerate r); cbn; auto.
Qed.

Lemma generation_served_by_route_witness :
  let vendor := fun _ : request_body =>
    Returned (lines [lit "```javascript"; lit "draw()"; lit "```"]) in
  let r := Editor.current Editor.mounted in
  let sent := Editor.generateCode r Editor.mounted in
  exists answer,
    POST (Returned (request_of r)) vendor = Some answer
    /\ Editor.r_code
         (Editor.current
            (Editor.generateCode_resume r (Body (body answer)) sent))
       = JString (lit "draw()").
Proof.
  cbv zeta.
  destruct (@generation_served_by_route (Editor.current Editor.mounted)
              Editor.mounted
              (fun _ => Returned (lines [lit "```javascript"; lit "draw()";
                                         lit "```"])) eq_refl)
    as (_ & _ & _ & answer & Hserved & Hcode & _).
  exists answer. split; [exact Hserved|].
  rewrite Hcode. vm_compute. reflexivity.
Defined.

Lemma single_flight_idle st :
  Editor.timers st = [] ->
  Editor.r_autoGenerate (Editor.current st) = false ->
  Editor.inflight st = [] ->
  Editor.r_isGenerating (Editor.current st) = false ->
  single_flight st.
Proof. intros. split; [|split]; auto. Qed.

Lemma single_flight_busy st r :
  Editor.timers st = [] ->
  Editor.r_autoGenerate (Editor.current st) = false ->
  Editor.inflight st = [r] ->
  Editor.r_autoGenerate r = false ->
  Editor.r_isGenerating (Editor.current st) = true ->
  single_flight st.
Proof. intros. split; [|split]; auto. right. exists r. auto. Qed.

Lemma single_flight_step e st :
  not_toggle e = true -> single_flight st -> single_flight (Editor.step e st).
Proof.
  intros He (Ht & Ha & Hf). destruct e; try discriminate He; cbn [Editor.step].
  - (* the button *)
    destruct Hf as [[Hi Hg]|(r & Hi & Hr & Hg)].
    + rewrite (generateCode_start _ _ Hg).
      apply single_flight_busy with (r := Editor.current st); cbn; auto.
      now rewrite Hi.
    + rewrite (generateCode_guard _ _ Hg). now apply single_flight_busy with r.
  - (* the Enter key *)
    destruct Hf as [[Hi Hg]|(r & Hi & Hr & Hg)]; rewrite Hg; cbn [negb].
    + rewrite (generateCode_start _ _ Hg).
      apply single_flight_busy with (r := Editor.current st); cbn; auto.
      now rewrite Hi.
    + now apply single_flight_busy with r.
  - (* typing the prompt *)
    destruct Hf as [[Hi Hg]|(r & Hi & Hr & Hg)].
    + now apply single_flight_idle.
    + now apply single_flight_busy with r.
  - (* a call resumes *)
    destruct Hf as [[Hi Hg]|(r & Hi & Hr & Hg)]; rewrite Hi.
    + destruct i; cbn [nth_error]; now apply single_flight_idle.
    + destruct i as [|i]; cbn [nth_error].
      * unfold Editor.generateCode_resume.
        destruct res as [m|m|data]; [| |destruct (truthy (p_error data))];
          try rewrite Hr; apply single_flight_idle; cbn; auto;
          now rewrite Hi.
      * destruct i; cbn [nth_error]; now apply single_flight_busy with r.
  - (* no timer is pending *)
    rewrite Ht.
    destruct i; cbn [nth_error]; split; [|split| |split]; auto.
Qed.

Lemma single_flight_mounted : single_flight Editor.mounted.
Proof. now apply single_flight_idle. Qed.

(** X7. While Auto-generate is never switched on, generation is
    single-flight: after any events of the page, resumed calls and timer
    ticks, at most one call is in flight, the flag is set exactly while
    one is, and no timer is pending. *)
Theorem single_flight_without_auto_generate (es : list Editor.event) :
  forallb not_toggle es = true ->
  let st := Editor.run es Editor.mounted in
  length (Editor.inflight st) <= 1
  /\ (Editor.r_isGenerating (Editor.current st) = true
      <-> Editor.inflight st <> [])
  /\ Editor.timers st = [].
Proof.
  intros Hes. cbv zeta.
  assert (H : single_flight (Editor.run es Editor.mounted)).
  { generalize single_flight_mounted. generalize Editor.mounted.
    induction es as [|e es IH]; intros st Hst; [exact Hst|].
    cbn [forallb] in Hes. apply andb_prop in Hes. destruct Hes as [He Hes].
    cbn [Editor.run]. apply (IH Hes). now apply single_flight_step. }
  destruct H as (Ht & _ & [[Hi Hg]|(r & Hi & _ & Hg)]); rewrite Hi, Hg.
  - cbn. split; [lia|]. split; [|exact Ht].
    split; [discriminate|congruence].
  - cbn. split; [lia|]. split; [|exact Ht].
    split; [discriminate|reflexivity].
Qed.

Lemma single_flight_without_auto_generate_witness :
  let st :=
    Editor.run [Editor.ClickGenerate; Editor.PressEnter; Editor.ClickGenerate;
                Editor.TimerFires 0]
      Editor.mounted in
  length (Editor.inflight st) <= 1
  /\ (Editor.r_isGenerating (Editor.current st) = true
      <-> Editor.inflight st <> [])
  /\ Editor.timers st = [].
Proof.
  apply (@single_flight_without_auto_generate
           [Editor.ClickGenerate; Editor.PressEnter; Editor.ClickGenerate;
            Editor.TimerFires 0]).
  reflexivity.
Defined.

(** ** More on the preview *)

Lemma reloads_bound shown values : reloads shown values <= length values.
Proof.
  revert shown. induction values as [|v rest IH]; intros shown; cbn; [lia|].
  destruct (str_eqb (normalizeCode v) (normalizeCode shown)).
  - specialize (IH shown). lia.
  - specialize (IH v). lia.
Qed.

Lemma edit_code values : forall shown writes st,
  synced shown writes st ->
  exists st' c,
    Editor.edit values st = Some st'
    /\ Editor.r_code (Editor.current st') = JString c
    /\ (values <> [] -> c = last values c)
    /\ synced (last_rendered shown values) (writes + reloads shown values) st'.
Proof.
  induction values as [|v rest IH]; intros shown writes st H.
  - pose proof H as [(c & Hc & Hn) Hk Hf]. exists st, c. cbn.
    rewrite Nat.add_0_r. split; [reflexivity|]. split; [exact Hc|].
    split; [intros Hnil; contradiction|exact H].
  - destruct (onChange_synced v H) as (st1 & H1 & Hc1 & H2).
    cbn [Editor.edit last_rendered reloads]. rewrite H1.
    assert (Hs : synced
              (if str_eqb (normalizeCode v) (normalizeCode shown)
               then shown else v)
              (if str_eqb (normalizeCode v) (normalizeCode shown)
               then writes else S writes) st1)
      by (destruct (str_eqb (normalizeCode v) (normalizeCode shown)); tauto).
    destruct (IH _ _ _ Hs) as (st' & c & He & Hc & Hl & Hsy).
    exists st', c. split; [exact He|]. split; [exact Hc|]. split.
    + intros _. destruct rest as [|w rest'].
      * cbn in He. injection He as <-. rewrite Hc1 in Hc. now injection Hc.
      * change (last (v :: w :: rest') c) with (last (w :: rest') c).
        apply Hl. discriminate.
    + destruct (str_eqb (normalizeCode v) (normalizeCode shown));
        [exact Hsy|]. now rewrite <- Nat.add_succ_comm.
Qed.

(** X8. However the source is edited, [onChange] never throws, the
    editor holds the last value typed, the [normalizedCode] cell is the
    normal form of that value, and the frame's content has been assigned
    at most once per edit after the initial load. *)
Theorem edits_keep_normalizedCode_in_step (values : list jsstring) :
  exists st f,
    Editor.edit values Editor.mounted = Some st
    /\ Editor.r_code (Editor.current st)
       = JString (last values INITIAL_CODE)
    /\ Editor.r_normalizedCode (Editor.current st)
       = normalizeCode (last values INITIAL_CODE)
    /\ Editor.iframeRef st = Some f
    /\ 1 <= srcdoc_writes f <= S (length values).
Proof.
  destruct (edit_code values mounted_synced) as (st & c & He & Hc & Hl & Hs).
  destruct Hs as [(c' & Hc' & Hn) Hk Hf].
  assert (Hlast : c = last values INITIAL_CODE).
  { destruct values as [|v rest].
    - cbn in He. injection He as <-. cbn in Hc. now injection Hc.
    - rewrite (Hl ltac:(discriminate)). clear.
      revert v. induction rest as [|w rest IH]; intros v; [reflexivity|].
      change (last (v :: w :: rest) c) with (last (w :: rest) c).
      change (last (v :: w :: rest) INITIAL_CODE)
        with (last (w :: rest) INITIAL_CODE). apply IH. }
  subst c. rewrite Hc in Hc'. injection Hc' as <-.
  eexists st, _. split; [exact He|]. split; [exact Hc|].
  split; [congruence|]. split; [exact Hf|].
  cbn [srcdoc_writes]. pose proof (reloads_bound INITIAL_CODE values). lia.
Qed.

(** ** Edits the normalizer does not see *)

Lemma drop_while_app p a b :
  drop_while p (a ++ b)
  = match drop_while p a with
    | [] => drop_while p b
    | c :: r => (c :: r) ++ b
    end.
Proof.
  induction a as [|x a IH]; [reflexivity|].
  cbn [app drop_while]. destruct (p x); [exact IH|reflexivity].
Qed.

Lemma drop_while_all p w : forallb p w = true -> drop_while p w = [].
Proof.
  induction w as [|x w IH]; [reflexivity|].
  cbn [forallb drop_while]. intros H. apply andb_prop in H.
  destruct H as [-> H]. auto.
Qed.

Lemma forallb_rev A (p : A -> bool) l : forallb p l = true -> forallb p (rev l) = true.
Proof.
  rewrite !forallb_forall. intros H x Hx. apply H. now apply in_rev.
Qed.

(** Blanks at either end do not change what [trim] returns. *)
Lemma trim_blanks w1 s w2 :
  forallb is_space w1 = true -> forallb is_space w2 = true ->
  trim (w1 ++ s ++ w2) = trim s.
Proof.
  intros H1 H2. unfold trim, trim_start.
  rewrite drop_while_app, (drop_while_all _ _ H1), drop_while_app.
  destruct (drop_while is_space s) as [|c r] eqn:E.
  - now rewrite (drop_while_all _ _ H2).
  - unfold trim_end, trim_start. rewrite rev_app_distr, drop_while_app.
    now rewrite (drop_while_all _ _ (forallb_rev _ _ H2)).
Qed.

Lemma space_not_slash c : is_space c = true -> c <> SLASH.
Proof. intros H ->. discriminate H. Qed.

Lemma strip_comments_blanks_before w s :
  forallb is_space w = true -> strip_comments (w ++ s) = w ++ strip_comments s.
Proof.
  induction w as [|c w IH]; [reflexivity|].
  cbn [forallb app]. intros H. apply andb_prop in H. destruct H as [Hc Hw].
  rewrite strip_comments_cons, comment_at_not_slash
    by now apply space_not_slash.
  now rewrite IH.
Qed.

Lemma collapse_spaces_blanks w :
  forallb is_space w = true -> forallb is_space (collapse_spaces w) = true.
Proof.
  destruct w as [|c w]; [reflexivity|].
  cbn [forallb]. intros H. apply andb_prop in H. destruct H as [Hc Hw].
  rewrite collapse_spaces_cons, Hc, (drop_while_all _ _ Hw).
  reflexivity.
Qed.

(** Blanks in front only add a space in front of the collapsed text. *)
Lemma collapse_spaces_blanks_before w s :
  forallb is_space w = true ->
  trim_start (collapse_spaces (w ++ s)) = trim_start (collapse_spaces s).
Proof.
  intros Hw. destruct w as [|c w]; [reflexivity|].
  cbn [forallb] in Hw. apply andb_prop in Hw. destruct Hw as [Hc Hw].
  cbn [app]. rewrite collapse_spaces_cons, Hc.
  rewrite drop_while_app, (drop_while_all _ _ Hw).
  unfold trim_start. cbn [drop_while]. rewrite is_space_SP.
  destruct s as [|d s']; [reflexivity|].
  cbn [drop_while]. destruct (is_space d) eqn:Ed.
  - rewrite collapse_spaces_cons, Ed. cbn [drop_while].
    now rewrite is_space_SP.
  - reflexivity.
Qed.

(** Blanks at the end add at most a space to the collapsed text. *)
Lemma collapse_spaces_blanks_after s w :
  forallb is_space w = true ->
  exists t, forallb is_space t = true
            /\ collapse_spaces (s ++ w) = collapse_spaces s ++ t.
Proof.
  intros Hw. induction s as [s IH] using length_ind.
  destruct s as [|c s'].
  - exists (collapse_spaces w). split; [now apply collapse_spaces_blanks|].
    reflexivity.
  - cbn [app]. rewrite !collapse_spaces_cons. destruct (is_space c).
    + rewrite drop_while_app.
      destruct (drop_while is_space s') as [|d r] eqn:E.
      * exists []. rewrite (drop_while_all _ _ Hw). split; reflexivity.
      * destruct (IH (d :: r)) as (t & Ht & Hc).
        { rewrite <- E. pose proof (drop_while_length is_space s').
          simpl. lia. }
        exists t. split; [exact Ht|]. now rewrite Hc.
    + destruct (IH s') as (t & Ht & Hc); [simpl; lia|].
      exists t. split; [exact Ht|]. now rewrite Hc.
Qed.

Lemma trim_start_trim s : trim s = trim_end (trim_start s).
Proof. reflexivity. Qed.

Lemma normalize_blanks_around w1 x w2 :
  forallb is_space w1 = true -> forallb is_space w2 = true ->
  trim (collapse_spaces (w1 ++ x ++ w2)) = trim (collapse_spaces x).
Proof.
  intros H1 H2.
  rewrite trim_start_trim, (collapse_spaces_blanks_before w1 (x ++ w2) H1).
  rewrite <- trim_start_trim.
  destruct (collapse_spaces_blanks_after x w2 H2) as (t & Ht & ->).
  rewrite <- (app_nil_l (collapse_spaces x ++ t)).
  now rewrite trim_blanks.
Qed.

Lemma includes_none_block_end u :
  includes [STAR; SLASH] u = false -> block_end u = None.
Proof.
  induction u as [|c u IH]; intros H; [reflexivity|].
  pose proof (includes_starts_with _ _ H) as Hs.
  specialize (IH (includes_tail _ _ _ H)).
  destruct u as [|d u']; [reflexivity|].
  rewrite block_end_cons2, IH. cbn [starts_with] in Hs.
  rewrite andb_true_r, (N.eqb_sym STAR c), (N.eqb_sym SLASH d) in Hs.
  now rewrite Hs.
Qed.

Lemma block_end_app_none r u :
  block_end r = None -> includes [STAR; SLASH] u = false ->
  match u with d :: _ => d <> SLASH | [] => True end ->
  block_end (r ++ u) = None.
Proof.
  intros Hr Hu Hh. induction r as [|c r IH].
  - now apply includes_none_block_end.
  - specialize (IH (block_end_tail _ _ Hr)). cbn [app].
    apply block_end_cons_none; [exact IH|].
    intros ->. destruct r as [|d r'].
    + cbn [app]. destruct u; [exact I|exact Hh].
    + cbn [app]. intros ->. discriminate Hr.
Qed.

Lemma take_while_app p a b :
  take_while p (a ++ b)
  = match drop_while p a with
    | [] => a ++ take_while p b
    | _ :: _ => take_while p a
    end.
Proof.
  induction a as [|x a IH]; [reflexivity|].
  cbn [app take_while drop_while]. destruct (p x); [|reflexivity].
  rewrite IH. now destruct (drop_while p a).
Qed.

Lemma skipn_app_le A n (a b : list A) :
  n <= length a -> skipn n (a ++ b) = skipn n a ++ b.
Proof.
  intros H. rewrite skipn_app. replace (n - length a) with 0 by lia.
  reflexivity.
Qed.

Lemma comment_at_block r :
  comment_at (SLASH :: STAR :: r)
  = option_map (fun j => 2 + j) (block_end r).
Proof. reflexivity. Qed.

Lemma comment_at_line r :
  comment_at (SLASH :: SLASH :: r) = Some (2 + length (take_while dot r)).
Proof. reflexivity. Qed.

Lemma comment_at_other d r :
  d <> STAR -> d <> SLASH -> comment_at (SLASH :: d :: r) = None.
Proof.
  intros H1 H2. unfold comment_at. change (SLASH =? SLASH)%N with true.
  cbv iota. destruct (N.eqb_spec d STAR); [contradiction|].
  destruct (N.eqb_spec d SLASH); [contradiction|reflexivity].
Qed.

(** Text put after [s] is stripped on its own, up to the rest of a line
    comment that [s] leaves open, when it closes no block comment and does
    not start with [/] or [*]. *)
Lemma strip_comments_app u :
  includes [STAR; SLASH] u = false ->
  match u with d :: _ => d <> SLASH /\ d <> STAR | [] => True end ->
  forall s, exists u',
    (u' = u \/ u' = drop_while dot u)
    /\ strip_comments (s ++ u) = strip_comments s ++ strip_comments u'.
Proof.
  intros Hu Hh. induction s as [s IH] using length_ind.
  destruct s as [|c s']; [exists u; auto|].
  assert (Hkeep : comment_at (c :: s') = None ->
                  comment_at (c :: s' ++ u) = None ->
                  exists u', (u' = u \/ u' = drop_while dot u)
                    /\ strip_comments ((c :: s') ++ u)
                       = strip_comments (c :: s') ++ strip_comments u').
  { intros H1 H2. destruct (IH s') as (u' & Hu' & He); [simpl; lia|].
    exists u'. split; [exact Hu'|]. cbn [app].
    now rewrite !strip_comments_cons, H1, H2, He. }
  assert (Hskip : forall n, comment_at (c :: s') = Some n ->
                  comment_at (c :: s' ++ u) = Some n ->
                  exists u', (u' = u \/ u' = drop_while dot u)
                    /\ strip_comments ((c :: s') ++ u)
                       = strip_comments (c :: s') ++ strip_comments u').
  { intros n H1 H2. pose proof (comment_at_bounds _ H1) as Hb. simpl in Hb.
    destruct (IH (skipn (pred n) s')) as (u' & Hu' & He);
      [rewrite length_skipn; simpl; lia|].
    exists u'. split; [exact Hu'|]. cbn [app].
    rewrite !strip_comments_cons, H1, H2, skipn_app_le by lia. exact He. }
  destruct (N.eq_dec c SLASH) as [->|Hc];
    [|apply Hkeep; now apply comment_at_not_slash].
  destruct s' as [|d r].
  - apply Hkeep; [reflexivity|]. cbn [app]. apply comment_at_slash_none.
    destruct u as [|e u']; [exact I|]. destruct Hh as [H1 H2].
    split; [exact H1|]. intros ->. contradiction.
  - cbn [app] in *.
    destruct (N.eq_dec d STAR) as [->|Hd].
    + destruct (block_end r) as [j|] eqn:Ej.
      * apply (Hskip (2 + j)); rewrite comment_at_block.
        -- now rewrite Ej.
        -- now rewrite (block_end_app _ u Ej).
      * apply Hkeep; rewrite comment_at_block.
        -- now rewrite Ej.
        -- rewrite block_end_app_none; auto.
           destruct u as [|e u']; [exact I|]. apply Hh.
    + destruct (N.eq_dec d SLASH) as [->|Hd'].
      * destruct (drop_while dot r) as [|e r'] eqn:Er.
        -- (* the line comment runs to the end of [s] *)
           exists (drop_while dot u). split; [auto|].
           rewrite !strip_comments_cons, !comment_at_line.
           rewrite take_while_app, Er.
           assert (Hr : take_while dot r = r).
           { pose proof (take_drop_while dot r) as H. rewrite Er in H.
             now rewrite app_nil_r in H. }
           rewrite Hr. cbn [Nat.add pred].
           replace (skipn (S (length r)) (SLASH :: r)) with (@nil jschar)
             by (cbn [skipn]; now rewrite skipn_all).
           cbn [skipn].
           rewrite <- (take_drop_while dot u) at 2.
           rewrite app_assoc, skipn_app_le, skipn_all by lia.
           simp strip_comments. reflexivity.
        -- apply (Hskip (2 + length (take_while dot r)));
             rewrite comment_at_line; [reflexivity|].
           now rewrite take_while_app, Er.
      * apply Hkeep; now apply comment_at_other.
Qed.

Lemma blanks_close_no_block w :
  forallb is_space w = true -> includes [STAR; SLASH] w = false.
Proof.
  induction w as [|c w IH]; [reflexivity|].
  cbn [forallb includes starts_with]. intros H. apply andb_prop in H.
  destruct H as [Hc Hw]. rewrite (IH Hw), orb_false_r.
  destruct (N.eqb_spec STAR c) as [<-|]; [discriminate Hc|reflexivity].
Qed.

Lemma forallb_drop_while (p q : jschar -> bool) w :
  forallb p w = true -> forallb p (drop_while q w) = true.
Proof.
  induction w as [|c w IH]; [reflexivity|].
  cbn [forallb drop_while]. intros H. destruct (q c).
  - apply andb_prop in H. now apply IH.
  - exact H.
Qed.

Lemma take_while_all p w : forallb p w = true -> take_while p w = w.
Proof.
  induction w as [|x w IH]; [reflexivity|].
  cbn [forallb take_while]. intros H. apply andb_prop in H.
  destruct H as [-> H]. f_equal. auto.
Qed.

Lemma strip_comments_blanks w :
  forallb is_space w = true -> strip_comments w = w.
Proof.
  intros H. rewrite <- (app_nil_r w) at 1.
  rewrite strip_comments_blanks_before by exact H.
  simp strip_comments. apply app_nil_r.
Qed.

Lemma normalizeCode_blanks w1 s w2 :
  forallb is_space w1 = true -> forallb is_space w2 = true ->
  normalizeCode (w1 ++ s ++ w2) = normalizeCode s.
Proof.
  intros H1 H2. rewrite !normalizeCode_unfold. unfold normalizeCode_spec.
  rewrite strip_comments_blanks_before by exact H1.
  destruct (@strip_comments_app w2 (blanks_close_no_block _ H2)) with (s := s)
    as (u' & Hu' & ->).
  { destruct w2 as [|d w2']; [exact I|]. cbn [forallb] in H2.
    apply andb_prop in H2. destruct H2 as [Hd _].
    split; intros ->; discriminate Hd. }
  assert (Hb : forallb is_space u' = true)
    by (destruct Hu' as [->| ->]; [exact H2|now apply forallb_drop_while]).
  rewrite (strip_comments_blanks _ Hb).
  now apply normalize_blanks_around.
Qed.

(** X9. White space put before or after a source does not change its
    normal form, also when the source ends inside a line comment. *)
Theorem normalizeCode_ignores_surrounding_blanks (w1 s w2 : jsstring) :
  forallb is_space w1 = true -> forallb is_space w2 = true ->
  normalizeCode (w1 ++ s ++ w2) = normalizeCode s.
Proof. apply normalizeCode_blanks. Qed.

Lemma normalizeCode_ignores_surrounding_blanks_witness :
  normalizeCode ([LF; SP] ++ lit "draw(); // go" ++ [SP; LF; LF])
  = normalizeCode (lit "draw(); // go").
Proof.
  apply (@normalizeCode_ignores_surrounding_blanks
           [LF; SP] (lit "draw(); // go") [SP; LF; LF]); reflexivity.
Defined.

Lemma normalizeCode_comment_line s c :
  forallb dot c = true -> includes (lit "*/") c = false ->
  normalizeCode (s ++ LF :: lit "//" ++ c) = normalizeCode s.
Proof.
  intros Hc Hb. rewrite !normalizeCode_unfold. unfold normalizeCode_spec.
  destruct (@strip_comments_app (LF :: lit "//" ++ c)) with (s := s)
    as (u' & Hu' & ->).
  - change (lit "//" ++ c) with (SLASH :: SLASH :: c).
    change (lit "*/") with [STAR; SLASH] in Hb.
    cbn [includes starts_with]. rewrite Hb.
    change (STAR =? LF)%N with false. change (STAR =? SLASH)%N with false.
    reflexivity.
  - split; discriminate.
  - assert (Hu : strip_comments u' = [LF]).
    { assert (u' = LF :: lit "//" ++ c) as -> by (destruct Hu' as [->| ->]; reflexivity).
      rewrite strip_comments_cons, comment_at_not_slash by discriminate.
      change (lit "//" ++ c) with (SLASH :: SLASH :: c).
      rewrite strip_comments_cons, comment_at_line.
      rewrite (take_while_all _ _ Hc). cbn [Nat.add pred skipn]. rewrite skipn_all.
      simp strip_comments. reflexivity. }
    rewrite Hu.
    exact (@normalize_blanks_around [] (strip_comments s) [LF]
             eq_refl eq_refl).
Qed.

(** X10. A new last line that holds only a line comment does not change
    the normal form, provided the comment's text has no [*/]: with one, it
    could close a block comment left open above it. *)
Theorem normalizeCode_ignores_appended_comment_line (s c : jsstring) :
  forallb dot c = true -> includes (lit "*/") c = false ->
  normalizeCode (s ++ LF :: lit "//" ++ c) = normalizeCode s.
Proof. apply normalizeCode_comment_line. Qed.

Lemma normalizeCode_ignores_appended_comment_line_witness :
  normalizeCode (lit "draw(); /* open" ++ LF :: lit "//" ++ lit " a note")
  = normalizeCode (lit "draw(); /* open").
Proof.
  apply (@normalizeCode_ignores_appended_comment_line
           (lit "draw(); /* open") (lit " a note")); reflexivity.
Defined.

(** The proviso of X10 is needed. *)
Example appended_comment_line_can_close_a_block :
  normalizeCode (lit "draw(); /* open" ++ LF :: lit "//" ++ lit " */")
  <> normalizeCode (lit "draw(); /* open").
Proof. vm_compute. discriminate. Qed.

(** ** Time stamps *)

Lemma gsub_class p rep prev s :
  gsub (exec (Cls p)) rep prev s
  = flat_map (fun c => if p c then rep else [c]) s.
Proof.
  revert prev. induction s as [|c s IH]; intros prev.
  - rewrite gsub_nil. reflexivity.
  - rewrite gsub_cons. unfold exec at 1. cbn [rmatch flat_map].
    destruct (p c); cbn [skipn]; now rewrite IH.
Qed.

Lemma digit_plain n :
  ((digit n =? ch ":") || (digit n =? ch "."))%N = false.
Proof.
  unfold digit. pose proof (Nat.mod_upper_bound n 10 ltac:(lia)) as H.
  destruct (n mod 10) as [|[|[|[|[|[|[|[|[|[|k]]]]]]]]]]; try reflexivity.
  lia.
Qed.

Lemma dashes_of_digits (l : jsstring) :
  Forall (fun c => exists n, c = digit n) l ->
  flat_map (fun c : jschar => if ((c =? ch ":") || (c =? ch "."))%N
                              then lit "-" else [c]) l = l.
Proof.
  induction 1 as [|c l [n ->] Hl IH]; [reflexivity|].
  cbn [flat_map]. now rewrite digit_plain, IH.
Qed.

Lemma pad2_digits n : Forall (fun c => exists k, c = digit k) (pad2 n).
Proof. repeat constructor; eauto. Qed.

Lemma pad3_digits n : Forall (fun c => exists k, c = digit k) (pad3 n).
Proof. constructor; [eauto|apply pad2_digits]. Qed.

Lemma pad4_digits n : Forall (fun c => exists k, c = digit k) (pad4 n).
Proof. constructor; [eauto|apply pad3_digits]. Qed.

Lemma In_firstn A n (l : list A) x : In x (firstn n l) -> In x l.
Proof.
  intros H. rewrite <- (firstn_skipn n l). apply in_or_app. now left.
Qed.

Lemma getTimestamp_chars iso c :
  In c (getTimestamp iso) ->
  c = ch "-" \/ (In c iso /\ c <> ch ":" /\ c <> ch ".").
Proof.
  unfold getTimestamp, slice_0_neg, re_colon_dot. rewrite gsub_class.
  intros H. apply In_firstn in H. apply in_flat_map in H.
  destruct H as (x & Hx & Hc).
  destruct ((x =? ch ":") || (x =? ch "."))%N eqn:E.
  - left. destruct Hc as [<-|[]]. reflexivity.
  - right. destruct Hc as [<-|[]]. apply orb_false_elim in E.
    destruct E as [E1 E2]. apply N.eqb_neq in E1, E2. auto.
Qed.

Lemma getTimestamp_length iso : length (getTimestamp iso) = length iso - 5.
Proof.
  unfold getTimestamp, slice_0_neg, re_colon_dot. rewrite gsub_class.
  assert (H : forall s, length (flat_map
              (fun c => if ((c =? ch ":") || (c =? ch "."))%N
                        then lit "-" else [c]) s) = length s).
  { induction s as [|x s IH]; [reflexivity|]. cbn [flat_map].
    rewrite length_app, IH.
    now destruct ((x =? ch ":") || (x =? ch "."))%N. }
  rewrite length_firstn, H. apply Nat.min_l, Nat.le_sub_l.
Qed.

(** X11. The time stamp in the names of the saved files has neither [:]
    nor [.], whatever the clock gives, and is five characters shorter than
    the ISO text; for a date of the years 0 to 9999 it is the date, [T],
    and hours, minutes and seconds separated by [-]: the seconds stay,
    only the milliseconds and the [Z] are cut. *)
Theorem getTimestamp_format :
  (forall iso,
     ~ In (ch ":") (getTimestamp iso) /\ ~ In (ch ".") (getTimestamp iso)
     /\ length (getTimestamp iso) = length iso - 5)
  /\ forall d,
       getTimestamp (toISOString d)
       = pad4 (year d) ++ lit "-" ++ pad2 (month d) ++ lit "-"
         ++ pad2 (day d) ++ lit "T" ++ pad2 (hours d) ++ lit "-"
         ++ pad2 (minutes d) ++ lit "-" ++ pad2 (seconds d).
Proof.
  split.
  - intros iso. split; [|split].
    + intros H. apply getTimestamp_chars in H.
      destruct H as [H|(_ & H & _)]; [discriminate H|now apply H].
    + intros H. apply getTimestamp_chars in H.
      destruct H as [H|(_ & _ & H)]; [discriminate H|now apply H].
    + apply getTimestamp_length.
  - intros d. unfold getTimestamp, slice_0_neg, re_colon_dot, toISOString.
    rewrite gsub_class. cbv beta. rewrite !flat_map_app.
    rewrite (dashes_of_digits (pad4_digits (year d))).
    rewrite (dashes_of_digits (pad2_digits (month d))).
    rewrite (dashes_of_digits (pad2_digits (day d))).
    rewrite (dashes_of_digits (pad2_digits (hours d))).
    rewrite (dashes_of_digits (pad2_digits (minutes d))).
    rewrite (dashes_of_digits (pad2_digits (seconds d))).
    rewrite (dashes_of_digits (pad3_digits (milliseconds d))).
    cbn [lit flat_map app]. rewrite !length_app. cbn [length pad4 pad3 pad2 app].
    reflexivity.
Qed.

Example getTimestamp_ex :
  getTimestamp (lit "2025-02-07T09:05:03.120Z") = lit "2025-02-07T09-05-03".
Proof. vm_compute. reflexivity. Qed.

(** ** Auto-save *)

Lemma run_cleanup_clears st :
  one_save_pending st ->
  AutoSave.save_timers (AutoSave.run_cleanup st) = []
  /\ AutoSave.editor (AutoSave.run_cleanup st) = AutoSave.editor st
  /\ AutoSave.autoSave (AutoSave.run_cleanup st) = AutoSave.autoSave st
  /\ AutoSave.next_timer (AutoSave.run_cleanup st) = AutoSave.next_timer st
  /\ AutoSave.to_frame (AutoSave.run_cleanup st) = AutoSave.to_frame st
  /\ AutoSave.downloads (AutoSave.run_cleanup st) = AutoSave.downloads st.
Proof.
  intros [H|(id & code & H & Hc)]; unfold AutoSave.run_cleanup.
  - destruct (AutoSave.cleanup st); cbn; rewrite ?H; auto 10.
  - rewrite Hc. cbn. rewrite H. cbn. rewrite Nat.eqb_refl. cbn. auto 10.
Qed.

(** A run of the effect with auto-save on leaves exactly the timer it
    sets, for the source of the render. *)
Lemma effect_with_autoSave st ed :
  one_save_pending st -> AutoSave.autoSave st = true ->
  Editor.updatePreview (Editor.current (AutoSave.editor st))
    (AutoSave.editor st) = Some ed ->
  exists st',
    AutoSave.effect st = Some st'
    /\ AutoSave.editor st' = ed
    /\ AutoSave.autoSave st' = true
    /\ AutoSave.save_timers st'
       = [(AutoSave.next_timer st,
           Editor.r_code (Editor.current (AutoSave.editor st)))]
    /\ AutoSave.cleanup st' = Some (AutoSave.next_timer st)
    /\ AutoSave.to_frame st' = AutoSave.to_frame st
    /\ AutoSave.downloads st' = AutoSave.downloads st.
Proof.
  intros Hp Ha Hu. unfold AutoSave.effect.
  destruct (run_cleanup_clears Hp) as (Ht & He & Hs & Hn & Hf & Hd).
  rewrite He, Hu, Hs, Ha. eexists. split; [reflexivity|].
  cbn. rewrite Ht, Hn, Hf, Hd, Hs. auto 10.
Qed.

(** The same with auto-save off: no timer is left. *)
Lemma effect_without_autoSave st ed :
  one_save_pending st -> AutoSave.autoSave st = false ->
  Editor.updatePreview (Editor.current (AutoSave.editor st))
    (AutoSave.editor st) = Some ed ->
  exists st',
    AutoSave.effect st = Some st'
    /\ AutoSave.editor st' = ed
    /\ AutoSave.autoSave st' = false
    /\ AutoSave.save_timers st' = []
    /\ AutoSave.cleanup st' = None
    /\ AutoSave.to_frame st' = AutoSave.to_frame st
    /\ AutoSave.downloads st' = AutoSave.downloads st.
Proof.
  intros Hp Ha Hu. unfold AutoSave.effect.
  destruct (run_cleanup_clears Hp) as (Ht & He & Hs & Hn & Hf & Hd).
  rewrite He, Hu, Hs, Ha. eexists. split; [reflexivity|].
  cbn. rewrite Ht, Hf, Hd, Hs. auto 10.
Qed.

(** [updatePreview] of the current render keeps the source, and either
    changes nothing or sets another [normalizedCode]. *)
Lemma updatePreview_current ed ed' :
  Editor.updatePreview (Editor.current ed) ed = Some ed' ->
  Editor.r_code (Editor.current ed') = Editor.r_code (Editor.current ed)
  /\ (ed' = ed
      \/ str_eqb (Editor.r_normalizedCode (Editor.current ed'))
                 (Editor.r_normalizedCode (Editor.current ed)) = false).
Proof.
  unfold Editor.updatePreview.
  destruct (Editor.r_code (Editor.current ed)) as [|code] eqn:Ec;
    [discriminate|].
  destruct (str_eqb (normalizeCode code)
              (Editor.r_normalizedCode (Editor.current ed))) eqn:E;
    cbn [negb].
  - intros [= <-]. auto.
  - cbn [Editor.iframeRef Editor.setNormalizedCode Editor.with_current].
    destruct (Editor.iframeRef ed); intros [= <-]; cbn; auto.
Qed.

Lemma commit_with_autoSave st ed :
  one_save_pending st -> AutoSave.autoSave st = true ->
  Editor.run_effects (AutoSave.editor st) = Some ed ->
  exists st' id,
    AutoSave.commit st = Some st'
    /\ AutoSave.editor st' = ed
    /\ AutoSave.autoSave st' = true
    /\ AutoSave.save_timers st'
       = [(id, Editor.r_code (Editor.current (AutoSave.editor st)))]
    /\ AutoSave.cleanup st' = Some id
    /\ AutoSave.to_frame st' = AutoSave.to_frame st
    /\ AutoSave.downloads st' = AutoSave.downloads st.
Proof.
  intros Hp Ha. unfold Editor.run_effects, AutoSave.commit.
  destruct (Editor.updatePreview (Editor.current (AutoSave.editor st))
              (AutoSave.editor st)) as [ed1|] eqn:E1; [|discriminate].
  intros E2.
  destruct (effect_with_autoSave Hp Ha E1)
    as (st1 & He1 & Hed1 & Ha1 & Ht1 & Hc1 & Hf1 & Hd1).
  rewrite He1, Hed1.
  destruct (updatePreview_current _ E1) as [Hcode [->|Hneq]].
  - rewrite str_eqb_refl. rewrite E1 in E2. injection E2 as <-.
    exists st1, (AutoSave.next_timer st). auto 10.
  - rewrite Hneq.
    assert (Hp1 : one_save_pending st1) by (right; eauto).
    rewrite <- Hed1 in E2.
    destruct (effect_with_autoSave Hp1 Ha1 E2)
      as (st2 & He2 & Hed2 & Ha2 & Ht2 & Hc2 & Hf2 & Hd2).
    exists st2, (AutoSave.next_timer st1). split; [exact He2|].
    rewrite Ht2, Hed1, Hcode, Hf2, Hd2. auto 10.
Qed.

Lemma commit_without_autoSave st ed :
  one_save_pending st -> AutoSave.autoSave st = false ->
  Editor.run_effects (AutoSave.editor st) = Some ed ->
  exists st',
    AutoSave.commit st = Some st'
    /\ AutoSave.editor st' = ed
    /\ AutoSave.autoSave st' = false
    /\ AutoSave.save_timers st' = []
    /\ AutoSave.to_frame st' = AutoSave.to_frame st
    /\ AutoSave.downloads st' = AutoSave.downloads st.
Proof.
  intros Hp Ha. unfold Editor.run_effects, AutoSave.commit.
  destruct (Editor.updatePreview (Editor.current (AutoSave.editor st))
              (AutoSave.editor st)) as [ed1|] eqn:E1; [|discriminate].
  intros E2.
  destruct (effect_without_autoSave Hp Ha E1)
    as (st1 & He1 & Hed1 & Ha1 & Ht1 & Hc1 & Hf1 & Hd1).
  rewrite He1, Hed1.
  destruct (updatePreview_current _ E1) as [Hcode [->|Hneq]].
  - rewrite str_eqb_refl. rewrite E1 in E2. injection E2 as <-.
    exists st1. auto 10.
  - rewrite Hneq.
    assert (Hp1 : one_save_pending st1) by (left; exact Ht1).
    rewrite <- Hed1 in E2.
    destruct (effect_without_autoSave Hp1 Ha1 E2)
      as (st2 & He2 & Hed2 & Ha2 & Ht2 & Hc2 & Hf2 & Hd2).
    exists st2. split; [exact He2|]. rewrite Hf2, Hd2. auto 10.
Qed.

Lemma jsval_eqb_eq a b : jsval_eqb a b = true <-> a = b.
Proof.
  destruct a as [|x], b as [|y]; cbn; split; try discriminate; auto.
  - intros H. apply str_eqb_eq in H. now subst.
  - intros [= ->]. apply str_eqb_refl.
Qed.

(** An edit with auto-save on: the editor moves as [Editor.onChange]
    says, and the one timer left is for the value typed. *)
Lemma autoSave_onChange shown writes st v :
  synced shown writes (AutoSave.editor st) ->
  one_save_pending st -> AutoSave.autoSave st = true ->
  Editor.r_code (Editor.current (AutoSave.editor st)) <> JString v ->
  exists st' id,
    AutoSave.onChange v st = Some st'
    /\ Editor.onChange v (AutoSave.editor st) = Some (AutoSave.editor st')
    /\ AutoSave.autoSave st' = true
    /\ AutoSave.save_timers st' = [(id, JString v)]
    /\ AutoSave.cleanup st' = Some id
    /\ AutoSave.to_frame st' = AutoSave.to_frame st
    /\ AutoSave.downloads st' = AutoSave.downloads st.
Proof.
  intros Hs Hp Ha Hv.
  destruct (onChange_synced v Hs) as (ed' & Ho & _ & _).
  pose proof Hs as [(c & Hc & Hcn) Hn Hf].
  revert Ho. unfold AutoSave.onChange, Editor.onChange.
  rewrite (updatePreview_noop (Editor.current (AutoSave.editor st)) _ Hc)
    by congruence.
  intros Ho.
  replace (jsval_eqb (Editor.r_code (Editor.current (AutoSave.editor st)))
             (JString v)) with false
    by (symmetry; apply not_true_is_false; intros H;
        apply jsval_eqb_eq in H; contradiction).
  cbn [andb].
  destruct (@commit_with_autoSave
              (AutoSave.with_editor
                 (Editor.setCode (JString v) (AutoSave.editor st)) st) ed')
    as (st' & id & H1 & H2 & H3 & H4 & H5 & H6 & H7).
  - destruct Hp as [H|(id & code & H & Hcl)]; [left|right; exists id, code];
      cbn; auto.
  - exact Ha.
  - exact Ho.
  - exists st', id. rewrite H1, Ho, H2. cbn in H4. auto 10.
Qed.

Lemma autoSave_edit values : forall shown writes st c0,
  synced shown writes (AutoSave.editor st) ->
  one_save_pending st -> AutoSave.autoSave st = true ->
  Editor.r_code (Editor.current (AutoSave.editor st)) = JString c0 ->
  each_differs c0 values -> values <> [] ->
  exists st' id,
    AutoSave.edit values st = Some st'
    /\ AutoSave.save_timers st' = [(id, JString (last values c0))]
    /\ AutoSave.to_frame st' = AutoSave.to_frame st
    /\ AutoSave.downloads st' = AutoSave.downloads st.
Proof.
  induction values as [|v rest IH]; intros shown writes st c0 Hs Hp Ha Hc Hd Hne;
    [contradiction|].
  destruct Hd as [Hv Hd].
  assert (Hneq : Editor.r_code (Editor.current (AutoSave.editor st))
                 <> JString v) by (rewrite Hc; congruence).
  destruct (autoSave_onChange Hs Hp Ha Hneq)
    as (st1 & id & Ho & Hed & Ha1 & Ht1 & Hc1 & Hf1 & Hd1).
  cbn [AutoSave.edit]. rewrite Ho.
  destruct rest as [|w rest'].
  - exists st1, id. cbn. auto.
  - destruct (onChange_synced v Hs) as (ed' & Ho' & Hcode & Hsy).
    rewrite Hed in Ho'. injection Ho' as <-.
    assert (Hs1 : exists shown' writes',
               synced shown' writes' (AutoSave.editor st1)).
    { destruct (str_eqb (normalizeCode v) (normalizeCode shown));
        [destruct Hsy|]; eauto. }
    destruct Hs1 as (shown' & writes' & Hs1).
    destruct (IH shown' writes' st1 v Hs1) as (st' & id' & He & Ht & Hf & Hdl);
      [right; eauto|exact Ha1|exact Hcode|exact Hd|discriminate|].
    exists st', id'. split; [exact He|].
    change (last (v :: w :: rest') c0) with (last (w :: rest') c0).
    assert (Hl : forall (l : list jsstring) x a b, last (x :: l) a = last (x :: l) b).
    { clear. induction l as [|y l IHl]; intros x a b; [reflexivity|].
      change (last (x :: y :: l) a) with (last (y :: l) a).
      change (last (x :: y :: l) b) with (last (y :: l) b). apply IHl. }
    rewrite (Hl rest' w c0 v). rewrite Hf, Hdl. auto.
Qed.

(** X12. Auto-save waits for the typing to stop: with auto-save on,
    after any run of edits, each a change of the source, during which no
    save timer fires (every edit comes before the 500 ms of the one before
    it are over), a single save is pending, for the last value typed, and
    nothing has been downloaded or asked of the frame.  When that timer
    fires it saves the last value; no other timer is left, so the values
    typed before it are not saved. *)
Theorem autoSave_debounces_edits
    (values : list jsstring) (shown : jsstring) (writes : nat)
    (st : AutoSave.state) (c0 : jsstring) :
  synced shown writes (AutoSave.editor st) ->
  one_save_pending st -> AutoSave.autoSave st = true ->
  Editor.r_code (Editor.current (AutoSave.editor st)) = JString c0 ->
  each_differs c0 values -> values <> [] ->
  exists st' id,
    AutoSave.edit values st = Some st'
    /\ AutoSave.save_timers st' = [(id, JString (last values c0))]
    /\ AutoSave.to_frame st' = AutoSave.to_frame st
    /\ AutoSave.downloads st' = AutoSave.downloads st
    /\ (forall iso,
          AutoSave.downloads (AutoSave.fire id iso st')
          = {| d_name := code_file_name iso;
               d_href := BlobOf (JString (last values c0)) |}
            :: AutoSave.downloads st
          /\ AutoSave.save_timers (AutoSave.fire id iso st') = [])
    /\ (forall id' iso, id' <> id -> AutoSave.fire id' iso st' = st').
Proof.
  intros Hs Hp Ha Hc Hd Hne.
  destruct (@autoSave_edit values shown writes st c0 Hs Hp Ha Hc Hd Hne)
    as (st' & id & He & Ht & Hf & Hdl).
  exists st', id. split; [exact He|]. split; [exact Ht|].
  split; [exact Hf|]. split; [exact Hdl|]. split.
  - intros iso. unfold AutoSave.fire. rewrite Ht. cbn.
    rewrite Nat.eqb_refl. cbn. now rewrite Hdl.
  - intros id' iso Hid. unfold AutoSave.fire. rewrite Ht. cbn.
    destruct (Nat.eqb_spec id id') as [E|_]; [|reflexivity].
    symmetry in E. contradiction.
Qed.

Lemma toggled_on :
  AutoSave.toggle AutoSave.mounted
  = Some {| AutoSave.editor := Editor.mounted; AutoSave.autoSave := true;
            AutoSave.next_timer := 1;
            AutoSave.save_timers := [(0, JString INITIAL_CODE)];
            AutoSave.cleanup := Some 0;
            AutoSave.to_frame := []; AutoSave.downloads := [] |}.
Proof. vm_compute. reflexivity. Qed.

Lemma autoSave_debounces_edits_witness :
  exists st0 st' id,
    AutoSave.toggle AutoSave.mounted = Some st0
    /\ AutoSave.edit [lit "a"; lit "ab"; lit "ab // c"] st0 = Some st'
    /\ AutoSave.save_timers st' = [(id, JString (lit "ab // c"))]
    /\ AutoSave.to_frame st' = []
    /\ AutoSave.downloads st' = [].
Proof.
  eexists.
  destruct (@autoSave_debounces_edits
              [lit "a"; lit "ab"; lit "ab // c"] INITIAL_CODE 1
              {| AutoSave.editor := Editor.mounted; AutoSave.autoSave := true;
                 AutoSave.next_timer := 1;
                 AutoSave.save_timers := [(0, JString INITIAL_CODE)];
                 AutoSave.cleanup := Some 0;
                 AutoSave.to_frame := []; AutoSave.downloads := [] |}
              INITIAL_CODE)
    as (st' & id & He & Ht & Hf & Hd & _).
  - exact mounted_synced.
  - right. exists 0, (JString INITIAL_CODE). split; reflexivity.
  - reflexivity.
  - reflexivity.
  - cbn. repeat split; discriminate.
  - discriminate.
  - exists st', id. split; [exact toggled_on|]. auto.
Defined.

(** X13. Auto-save does not look at the normal form: an edit that only
    adds a comment or white space leaves the frame as it is, yet sets the
    save timer, and when the timer fires the file downloaded holds the
    edited source. *)
Theorem autoSave_saves_what_the_preview_skips
    (shown : jsstring) (writes : nat) (st : AutoSave.state) (v : jsstring) :
  synced shown writes (AutoSave.editor st) ->
  one_save_pending st -> AutoSave.autoSave st = true ->
  Editor.r_code (Editor.current (AutoSave.editor st)) <> JString v ->
  normalizeCode v = normalizeCode shown ->
  exists st' id,
    AutoSave.onChange v st = Some st'
    /\ Editor.iframeRef (AutoSave.editor st')
       = Editor.iframeRef (AutoSave.editor st)
    /\ AutoSave.save_timers st' = [(id, JString v)]
    /\ forall iso,
         AutoSave.downloads (AutoSave.fire id iso st')
         = {| d_name := code_file_name iso; d_href := BlobOf (JString v) |}
           :: AutoSave.downloads st.
Proof.
  intros Hs Hp Ha Hv Hn.
  destruct (autoSave_onChange Hs Hp Ha Hv)
    as (st' & id & Ho & Hed & Ha1 & Ht1 & Hc1 & Hf1 & Hd1).
  destruct (onChange_synced v Hs) as (ed' & Ho' & _ & Hsy).
  rewrite Hed in Ho'. injection Ho' as <-.
  rewrite Hn, str_eqb_refl in Hsy. destruct Hsy as [_ Hi].
  exists st', id. split; [exact Ho|]. split; [exact Hi|].
  split; [exact Ht1|]. intros iso. unfold AutoSave.fire.
  rewrite Ht1. cbn. rewrite Nat.eqb_refl. cbn. now rewrite Hd1.
Qed.

Lemma autoSave_saves_what_the_preview_skips_witness :
  exists st0 st' id,
    AutoSave.toggle AutoSave.mounted = Some st0
    /\ AutoSave.onChange (INITIAL_CODE ++ lit " // note") st0 = Some st'
    /\ Editor.iframeRef (AutoSave.editor st')
       = Editor.iframeRef (AutoSave.editor st0)
    /\ AutoSave.save_timers st'
       = [(id, JString (INITIAL_CODE ++ lit " // note"))].
Proof.
  eexists.
  destruct (@autoSave_saves_what_the_preview_skips INITIAL_CODE 1
              {| AutoSave.editor := Editor.mounted; AutoSave.autoSave := true;
                 AutoSave.next_timer := 1;
                 AutoSave.save_timers := [(0, JString INITIAL_CODE)];
                 AutoSave.cleanup := Some 0;
                 AutoSave.to_frame := []; AutoSave.downloads := [] |}
              (INITIAL_CODE ++ lit " // note"))
    as (st' & id & Ho & Hi & Ht & _).
  - exact mounted_synced.
  - right. exists 0, (JString INITIAL_CODE). split; reflexivity.
  - reflexivity.
  - discriminate.
  - vm_compute. reflexivity.
  - exists st', id. split; [exact toggled_on|]. auto.
Defined.

Lemma run_effects_synced shown writes ed :
  synced shown writes ed -> Editor.run_effects ed = Some ed.
Proof.
  intros [(c & Hc & Hcn) Hn Hf]. unfold Editor.run_effects.
  rewrite (updatePreview_noop (Editor.current ed) ed Hc) by congruence.
  apply (updatePreview_noop (Editor.current ed) ed Hc). congruence.
Qed.

(** X14. The Auto-save button: switching it off cancels the save that
    is pending; switching it on sets a timer for the source as it is, with
    no edit needed.  Neither touches the frame or downloads anything. *)
Theorem autoSave_toggle_cancels_or_schedules
    (shown : jsstring) (writes : nat) (st : AutoSave.state) :
  synced shown writes (AutoSave.editor st) ->
  one_save_pending st ->
  exists st',
    AutoSave.toggle st = Some st'
    /\ AutoSave.autoSave st' = negb (AutoSave.autoSave st)
    /\ AutoSave.editor st' = AutoSave.editor st
    /\ AutoSave.downloads st' = AutoSave.downloads st
    /\ AutoSave.to_frame st' = AutoSave.to_frame st
    /\ if AutoSave.autoSave st
       then AutoSave.save_timers st' = []
       else exists id,
              AutoSave.save_timers st'
              = [(id, Editor.r_code (Editor.current (AutoSave.editor st)))].
Proof.
  intros Hs Hp. unfold AutoSave.toggle.
  pose proof (run_effects_synced Hs) as Hr.
  destruct (AutoSave.autoSave st) eqn:Ha; cbn [negb].
  - match goal with
    | |- context [AutoSave.commit ?s] =>
        destruct (@commit_without_autoSave s (AutoSave.editor st))
          as (st' & H1 & H2 & H3 & H4 & H5 & H6)
    end; [exact Hp|reflexivity|exact Hr|].
    exists st'. cbn in H5, H6. auto 10.
  - match goal with
    | |- context [AutoSave.commit ?s] =>
        destruct (@commit_with_autoSave s (AutoSave.editor st))
          as (st' & id & H1 & H2 & H3 & H4 & H5 & H6 & H7)
    end; [exact Hp|reflexivity|exact Hr|].
    exists st'. cbn in H4, H6, H7. eauto 10.
Qed.

Lemma autoSave_toggle_cancels_or_schedules_witness :
  exists st0 st1,
    AutoSave.toggle AutoSave.mounted = Some st0
    /\ AutoSave.save_timers st0 = [(0, JString INITIAL_CODE)]
    /\ AutoSave.toggle st0 = Some st1
    /\ AutoSave.save_timers st1 = [].
Proof.
  eexists.
  destruct (@autoSave_toggle_cancels_or_schedules INITIAL_CODE 1
              {| AutoSave.editor := Editor.mounted; AutoSave.autoSave := true;
                 AutoSave.next_timer := 1;
                 AutoSave.save_timers := [(0, JString INITIAL_CODE)];
                 AutoSave.cleanup := Some 0;
                 AutoSave.to_frame := []; AutoSave.downloads := [] |})
    as (st1 & Ht & _ & _ & _ & _ & Hs).
  - exact mounted_synced.
  - right. exists 0, (JString INITIAL_CODE). split; reflexivity.
  - exists st1. split; [exact toggled_on|]. cbn in Hs. auto.
Defined.

(** X15. When the save timer fires, the source it was set for is
    downloaded under the name built from the clock and a screenshot is
    asked of the frame; a frame that has a canvas answers and the page
    downloads the image under the [.png] name, a frame without canvas
    does not answer and nothing more is downloaded.  The page does not
    react to a request, nor the frame to an answer. *)
Theorem save_timer_downloads_code_then_screenshot
    (st : AutoSave.state) (id : nat) (code : jsval) (f : iframe)
    (iso : jsstring) :
  AutoSave.save_timers st = [(id, code)] ->
  Editor.iframeRef (AutoSave.editor st) = Some f ->
  AutoSave.to_frame st = [] ->
  let st1 := AutoSave.fire id iso st in
  AutoSave.save_timers st1 = []
  /\ AutoSave.downloads st1
     = {| d_name := code_file_name iso; d_href := BlobOf code |}
       :: AutoSave.downloads st
  /\ (forall canvas iso',
        let st2 := AutoSave.deliver canvas iso' st1 in
        AutoSave.to_frame st2 = []
        /\ AutoSave.downloads st2
           = match canvas with
             | Some data =>
                 {| d_name := screenshot_file_name iso';
                    d_href := UrlOf (Some data) |}
                 :: AutoSave.downloads st1
             | None => AutoSave.downloads st1
             end)
  /\ (forall request answer data,
        handleScreenshot (Some f) = Some request ->
        frame_onmessage (Some data) request = Some answer ->
        handleMessage iso request = None
        /\ frame_onmessage (Some data) answer = None).
Proof.
  intros Ht Hf Hq. cbv zeta. unfold AutoSave.fire.
  rewrite Ht. cbn [find fst]. rewrite Nat.eqb_refl. cbn.
  rewrite Nat.eqb_refl, Hf, Hq. cbn.
  split; [reflexivity|]. split; [reflexivity|]. split.
  - intros canvas iso'. unfold AutoSave.deliver. cbn.
    destruct canvas; cbn; auto.
  - intros request answer data [= <-] [= <-]. split; reflexivity.
Qed.

Lemma save_timer_downloads_code_then_screenshot_witness :
  map d_name
    (AutoSave.downloads
       (AutoSave.deliver (Some (lit "data:image/png;base64,AAAA"))
          (lit "2025-02-07T09:05:04.100Z")
          (AutoSave.fire 0 (lit "2025-02-07T09:05:03.600Z")
             {| AutoSave.editor := Editor.mounted; AutoSave.autoSave := true;
                AutoSave.next_timer := 1;
                AutoSave.save_timers := [(0, JString INITIAL_CODE)];
                AutoSave.cleanup := Some 0;
                AutoSave.to_frame := []; AutoSave.downloads := [] |})))
  = [lit "p5js-sketch-2025-02-07T09-05-04.png";
     lit "p5js-sketch-2025-02-07T09-05-03.js"].
Proof.
  destruct (@save_timer_downloads_code_then_screenshot
              {| AutoSave.editor := Editor.mounted; AutoSave.autoSave := true;
                 AutoSave.next_timer := 1;
                 AutoSave.save_timers := [(0, JString INITIAL_CODE)];
                 AutoSave.cleanup := Some 0;
                 AutoSave.to_frame := []; AutoSave.downloads := [] |}
              0 (JString INITIAL_CODE)
              (assign_srcdoc (getIframeContent INITIAL_CODE)
                 {| srcdoc := []; srcdoc_writes := 0 |})
              (lit "2025-02-07T09:05:03.600Z") eq_refl eq_refl eq_refl)
    as (_ & Hd & Hdel & _).
  destruct (Hdel (Some (lit "data:image/png;base64,AAAA"))
              (lit "2025-02-07T09:05:04.100Z")) as [_ Hd2].
  rewrite Hd2, Hd. vm_compute. reflexivity.
Defined.

(** ** Edits that never restart the sketch *)




